(** * goflow: the connection-wiring core ([graph_connect.go])

    A shallow embedding of [parseAddress], [getProcPort], [attachPort],
    [findExistingChan], [ConnectBuf] and the listener counters, together
    with the part of Go's [reflect] package these functions rely on. *)

From Stdlib Require Import ZArith NArith String Ascii List Lia Bool.
From stdpp Require Import base option gmap strings list fin_maps.

Local Open Scope string_scope.

(** ** Strings

    A Go string is a sequence of bytes; [String.string] is a list of
    [ascii] bytes.  [s[lo:hi]] is byte slicing. *)

Definition slice (s : string) (lo hi : nat) : string :=
  String.substring lo (hi - lo) s.

(** ** Addresses *)

(** [type address struct { proc, port, key string }] *)
Record address := mkAddress {
  a_proc : string;
  a_port : string;
  a_key  : string
}.

Global Instance address_eq_dec : EqDecision address.
Proof. solve_decision. Defined.

Definition lbracket : ascii := "["%char.
Definition rbracket : ascii := "]"%char.

(** State of the [for i, r := range port] loop of [parseAddress]: the
    index [i] of the next byte, [keyPos], [n.port] and [key]. *)
Record parse_state := mkPS {
  ps_i      : nat;
  ps_keyPos : nat;
  ps_port   : string;
  ps_key    : string
}.

(** One iteration of the loop body on the byte [r] found at index
    [ps_i].  The loop ranges over runes, with [i] the byte offset of each
    rune; the bytes 0x5B and 0x5D never occur inside a multi-byte UTF-8
    sequence, so the two tests fire at exactly the same offsets when the
    text is walked byte by byte. *)
Definition parse_step (port : string) (st : parse_state) (r : ascii) : parse_state :=
  let i := ps_i st in
  let st1 :=
    if Ascii.eqb r lbracket
    then mkPS i (i + 1) (slice port 0 i) (ps_key st)
    else st in
  let st2 :=
    if Ascii.eqb r rbracket
    then mkPS i (ps_keyPos st1) (ps_port st1) (slice port (ps_keyPos st1) i)
    else st1 in
  mkPS (i + 1) (ps_keyPos st2) (ps_port st2) (ps_key st2).

Fixpoint parse_loop (port : string) (rest : string) (st : parse_state) : parse_state :=
  match rest with
  | EmptyString => st
  | String r rest' => parse_loop port rest' (parse_step port st r)
  end.

(** [func parseAddress(proc, port string) address] *)
Definition parseAddress (proc port : string) : address :=
  let st := parse_loop port port (mkPS 0 0 port "") in
  if String.eqb (ps_key st) ""
  then mkAddress proc (ps_port st) ""
  else mkAddress proc (ps_port st) (ps_key st).

(** The one-byte texts ["["] and ["]"], and the state the loop starts in. *)
Definition lb : string := String lbracket EmptyString.
Definition rb : string := String rbracket EmptyString.
Definition init_state (port : string) : parse_state := mkPS 0 0 port "".

(** Whether the byte [c] occurs in [s]. *)
Fixpoint occurs (c : ascii) (s : string) : bool :=
  match s with
  | EmptyString => false
  | String r s' => Ascii.eqb r c || occurs c s'
  end.

(** Index of the first [c] in [s], counted from [i]. *)
Fixpoint first_index (c : ascii) (s : string) (i : nat) : option nat :=
  match s with
  | EmptyString => None
  | String r s' => if Ascii.eqb r c then Some i else first_index c s' (S i)
  end.

(** Index of the last [c] in [s], counted from [i]. *)
Fixpoint last_index (c : ascii) (s : string) (i : nat) : option nat :=
  match s with
  | EmptyString => None
  | String r s' =>
      match last_index c s' (S i) with
      | Some j => Some j
      | None => if Ascii.eqb r c then Some i else None
      end
  end.

(** The parser as the specification words it: the first [[] is the split
    point, the port name is what precedes it, and the key runs from the
    split point to the last []]; without a bracket the text is the port
    name and the key is empty. *)
Definition parseAddress_first_bracket (proc port : string) : address :=
  match first_index lbracket port 0 with
  | None => mkAddress proc port ""
  | Some i =>
      match last_index rbracket port 0 with
      | None => mkAddress proc (slice port 0 i) ""
      | Some j => mkAddress proc (slice port 0 i) (slice port (i + 1) j)
      end
  end.

(** ** The part of package [reflect] used by the wiring code *)

(** [reflect.ChanDir]: [RecvDir = 1], [SendDir = 2], [BothDir = RecvDir | SendDir]. *)
Inductive ChanDir := RecvDir | SendDir | BothDir.

Definition ChanDir_bits (d : ChanDir) : Z :=
  match d with RecvDir => 1 | SendDir => 2 | BothDir => 3 end%Z.

Definition ChanDir_String (d : ChanDir) : string :=
  match d with SendDir => "chan<-" | RecvDir => "<-chan" | BothDir => "chan" end.

Global Instance ChanDir_eq_dec : EqDecision ChanDir.
Proof. solve_decision. Defined.

(** [reflect.Type], as far as the code looks at it: a channel type with
    its direction and element type, or a type of some other, non-nillable
    kind (int, string, struct, ...). Element types are named. *)
Inductive rtype :=
  | ChanT (dir : ChanDir) (elem : string)
  | OtherT (name : string).

Global Instance rtype_eq_dec : EqDecision rtype.
Proof. solve_decision. Defined.

(** [reflect.Value].  [VZero] is the zero Value ([reflect.ValueOf(nil)],
    [var v reflect.Value]).  [VChan t p] is a value that is not addressable,
    such as the result of [reflect.MakeChan]; [p] is the channel pointer,
    0 for a nil channel.  [VField t ro l] is a struct field: it designates
    the variable at address [l], whose content is read from the heap each
    time it is used; [ro] is reflect's read-only flag (a field reached
    through an unexported name). *)
Inductive Value :=
  | VZero
  | VChan (t : rtype) (p : N)
  | VField (t : rtype) (ro : bool) (l : N).

Global Instance Value_eq_dec : EqDecision Value.
Proof. solve_decision. Defined.

(** A channel object: element type and capacity. *)
Record chan_obj := mkChan { chan_elem : string; chan_cap : Z }.

(** The memory the Values point into: the content (a channel pointer) of
    every port variable, the allocated channels, and what the runtime can
    allocate.  The channel with pointer [p > 0] is [chans !! (p - 1)]; a
    channel, once made, stays.  [chan_limit elem] bounds the buffer size
    for which the runtime's [makechan] makes a channel of element type
    [elem]: it panics when the element size times the buffer size overflows
    or exceeds [maxAlloc] less the channel header, so the bound depends on
    the platform and on the element type. *)
Record Heap := mkHeap {
  slots : gmap N N;
  chans : list chan_obj;
  chan_limit : string -> Z
}.

(** The largest [int], the type of a buffer size (64 bits, as for the
    listener counters below). *)
Definition max_int : Z := 2 ^ 63 - 1.

(** The largest buffer size of a channel of element type [elem] that can
    be asked for and made. *)
Definition makechan_limit (h : Heap) (elem : string) : Z :=
  Z.min (chan_limit h elem) max_int.

(** A call either returns or panics. *)
Inductive outcome (A : Type) :=
  | Ret (a : A)
  | Panic (msg : string).
Arguments Ret {A} a.
Arguments Panic {A} msg.

Definition IsValid (v : Value) : bool :=
  match v with VZero => false | _ => true end.

Definition CanSet (v : Value) : bool :=
  match v with VField _ ro _ => negb ro | _ => false end.

(** [v.Type()]: panics on the zero Value. *)
Definition TypeOf (v : Value) : outcome rtype :=
  match v with
  | VZero => Panic "reflect: call of reflect.Value.Type on zero Value"
  | VChan t _ => Ret t
  | VField t _ _ => Ret t
  end.

Definition is_chan (t : rtype) : bool :=
  match t with ChanT _ _ => true | OtherT _ => false end.

(** The channel pointer a valid Value currently holds. *)
Definition load (h : Heap) (v : Value) : N :=
  match v with
  | VZero => 0
  | VChan _ p => p
  | VField _ _ l => default 0%N (slots h !! l)
  end.

(** [v.IsNil()]: panics unless the kind is nillable. *)
Definition IsNil (h : Heap) (v : Value) : outcome bool :=
  match v with
  | VZero => Panic "reflect: call of reflect.Value.IsNil on zero Value"
  | VChan t _ | VField t _ _ =>
      if is_chan t then Ret (N.eqb (load h v) 0)
      else Panic "reflect: call of reflect.Value.IsNil on non-nillable Value"
  end.

(** [v.Pointer()] *)
Definition Pointer (h : Heap) (v : Value) : outcome N :=
  match v with
  | VZero => Panic "reflect: call of reflect.Value.Pointer on zero Value"
  | VChan t _ | VField t _ _ =>
      if is_chan t then Ret (load h v)
      else Panic "reflect: call of reflect.Value.Pointer on non-pointer Value"
  end.

(** Assignability of a value of type [V] to a variable of type [T]:
    identical types, or a bidirectional channel value and a channel type
    with the same element type. *)
Definition assignable (T V : rtype) : bool :=
  bool_decide (T = V) ||
  match T, V with
  | ChanT _ e, ChanT BothDir e' => String.eqb e e'
  | _, _ => false
  end.

(** [port.Set(x)]: [port] must be settable, [x] valid and not read-only,
    and the type of [x] assignable to that of [port]; else it panics. *)
Definition SetValue (h : Heap) (port x : Value) : outcome Heap :=
  match port with
  | VField T false l =>
      match x with
      | VZero => Panic "reflect: call of reflect.Value.Set on zero Value"
      | VField _ true _ =>
          Panic "reflect: reflect.Value.Set using value obtained using unexported field"
      | VChan V _ | VField V false _ =>
          if assignable T V
          then Ret (mkHeap (<[l := load h x]> (slots h)) (chans h) (chan_limit h))
          else Panic "reflect.Set: value is not assignable to type"
      end
  | VField _ true _ =>
      Panic "reflect: reflect.Value.Set using value obtained using unexported field"
  | _ => Panic "reflect: reflect.Value.Set using unaddressable value"
  end.

(** [reflect.MakeChan(reflect.ChanOf(reflect.BothDir, elem), bufSize)]:
    a fresh channel.  [reflect.MakeChan] panics on a negative size, and the
    runtime's [makechan] it calls panics on a size beyond what it can
    allocate for the element type.  [reflect.ChanOf] does not fail here:
    [elem] is the element type of the channel type of a port. *)
Definition MakeChan (h : Heap) (elem : string) (bufSize : Z) : outcome (Value * Heap) :=
  if (bufSize <? 0)%Z
  then Panic "reflect.MakeChan: negative buffer size"
  else if (makechan_limit h elem <? bufSize)%Z
  then Panic "makechan: size out of range"
  else Ret (VChan (ChanT BothDir elem) (N.of_nat (S (length (chans h)))),
            mkHeap (slots h) (chans h ++ [mkChan elem bufSize]) (chan_limit h)).

(** The channel object behind a pointer. *)
Definition chan_at (h : Heap) (p : N) : option chan_obj :=
  if N.eqb p 0 then None else chans h !! N.to_nat (N.pred p).

(** The heap after [port.Set(x)] on the variable at [l]. *)
Definition store (h : Heap) (l p : N) : Heap :=
  mkHeap (<[l := p]> (slots h)) (chans h) (chan_limit h).

(** The heap after a channel was made, and the pointer it got. *)
Definition alloc (h : Heap) (elem : string) (bufSize : Z) : Heap :=
  mkHeap (slots h) (chans h ++ [mkChan elem bufSize]) (chan_limit h).

Definition next_ptr (h : Heap) : N := N.of_nat (S (length (chans h))).

(** ** Graphs *)

(** [type connection struct] *)
Record connection := mkConnection {
  src     : address;
  tgt     : address;
  channel : Value;
  buffer  : Z
}.

(** A Go [error]: [None] is [nil], [Some msg] an error with that text. *)
Definition error := option string.

(** [uint] counters wrap around. *)
Definition uint_modulus : N := 2 ^ 64.


(** The three errors of the attach step. *)
Definition attach_error (dir : ChanDir) (e : string) : Prop :=
  e = "not a channel" \/
  e = "channel does not support direction " +:+ ChanDir_String dir \/
  e = "port is not assignable".


(** What [getProcPort] makes of the answer of a sub-network lookup: the
    port, or "does not have port" whatever the error was. *)
Definition exported (procName portName : string) (r : Value * error)
  : outcome (Value * error) :=
  match snd r with
  | Some _ =>
      Ret (VZero, Some ("process '" +:+ procName +:+ "' does not have port '"
                        +:+ portName +:+ "'"))
  | None => Ret (fst r, None)
  end.

Section Wiring.

(** The nested sub-network type and its two exported-port lookups,
    [getOutPort] and [getInPort], are declared in another file of the
    package; they are taken as they come. *)
Context {Net : Type}.
Variable getOutPort : Net -> string -> Value * error.
Variable getInPort : Net -> string -> Value * error.

(** What a registered process points to: a struct with named fields, a
    [Graph], or something else (a value of a named integer type, say, on
    which [FieldByName] panics; reflect's message names the kind of the
    value, which is written ["non-struct"] here). *)
Inductive Pointee :=
  | StructP (fields : gmap string Value)
  | GraphP (net : Net)
  | OtherP.

(** A registered process, an [interface{}]: the nil interface, a value
    that is not a pointer, or a pointer ([None]: a nil pointer). *)
Inductive Proc :=
  | NilProc
  | ValueProc
  | PtrProc (target : option Pointee).

(** Modelled from the spec: the fields of [Graph] used here (the struct is
    declared in another file): the default buffer size of the
    configuration, the process registry, the connection list and the
    table from channel identity to attached-sender count. *)
Record Graph := mkGraph {
  conf_BufferSize    : Z;
  procs              : gmap string Proc;
  connections        : list connection;
  chanListenersCount : gmap N N
}.

Definition World : Type := Graph * Heap.

(** Computations on the graph and the heap that may panic. *)
Definition M (A : Type) : Type := World -> outcome A * World.

Definition ret {A} (a : A) : M A := fun w => (Ret a, w).
Definition bind {A B} (m : M A) (k : A -> M B) : M B :=
  fun w => match m w with
           | (Ret a, w') => k a w'
           | (Panic msg, w') => (Panic msg, w')
           end.
Definition lift {A} (f : World -> outcome A) : M A := fun w => (f w, w).

Notation "'let*' x := m 'in' k" := (bind m (fun x => k))
  (at level 10, x name, m at level 100, k at level 200, only parsing).
Notation "'let*' ' p := m 'in' k" := (bind m (fun x => let 'p := x in k))
  (at level 10, p pattern, m at level 100, k at level 200, only parsing).
Notation "'exec' m 'in' k" := (bind m (fun _ => k))
  (at level 10, m at level 100, k at level 200, only parsing).

(** [func (n *Graph) getProcPort(procName, portName string, dir reflect.ChanDir) (reflect.Value, error)] *)
Definition getProcPort (n : Graph) (procName portName : string) (dir : ChanDir)
  : outcome (Value * error) :=
  let nilValue := VZero in
  match procs n !! procName with
  | None => Ret (nilValue, Some ("process '" +:+ procName +:+ "' not found"))
  | Some proc =>
      (* val := reflect.ValueOf(proc); a valid pointer is dereferenced;
         only what a non-nil pointer points to can be set *)
      match proc with
      | NilProc | ValueProc | PtrProc None =>
          Ret (nilValue, Some ("process '" +:+ procName +:+ "' is not settable"))
      | PtrProc (Some val) =>
          let notFound :=
            Ret (nilValue,
                 Some ("process '" +:+ procName +:+ "' does not have port '"
                       +:+ portName +:+ "'")) in
          match val with
          | GraphP net =>
              let '(portVal, err) :=
                match dir with
                | SendDir => getOutPort net portName
                | _ => getInPort net portName
                end in
              match err with
              | Some _ => notFound
              | None => Ret (portVal, None)
              end
          | StructP fields =>
              let portVal := default VZero (fields !! portName) in
              if IsValid portVal then Ret (portVal, None) else notFound
          | OtherP =>
              Panic "reflect: call of reflect.Value.FieldByName on non-struct Value"
          end
      end
  end.

(** [func validateChanDir(portType reflect.Type, dir reflect.ChanDir) error] *)
Definition validateChanDir (portType : rtype) (dir : ChanDir) : error :=
  match portType with
  | OtherT _ => Some "not a channel"
  | ChanT pdir _ =>
      if (Z.land (ChanDir_bits pdir) (ChanDir_bits dir) =? 0)%Z
      then Some ("channel does not support direction " +:+ ChanDir_String dir)
      else None
  end.

(** [func validateCanSet(portVal reflect.Value) error] *)
Definition validateCanSet (portVal : Value) : error :=
  if negb (CanSet portVal) then Some "port is not assignable" else None.

(** [!v.IsValid() || v.IsNil()] *)
Definition invalid_or_nil (h : Heap) (v : Value) : outcome bool :=
  if negb (IsValid v) then Ret true else IsNil h v.

(** [v.IsValid() && !v.IsNil()] *)
Definition valid_and_not_nil (h : Heap) (v : Value) : outcome bool :=
  if IsValid v
  then match IsNil h v with Ret b => Ret (negb b) | Panic msg => Panic msg end
  else Ret false.

(** [func selectOrMakeChan(new, existing reflect.Value, bufSize int) reflect.Value] *)
Definition selectOrMakeChan (new existing : Value) (bufSize : Z) : M Value :=
  let* b := lift (fun w => invalid_or_nil (snd w) new) in
  if b then
    let* e := lift (fun w => valid_and_not_nil (snd w) existing) in
    if e then ret existing
    else
      let* t := lift (fun _ => TypeOf existing) in
      match t with
      | ChanT _ elem =>
          fun w => match MakeChan (snd w) elem bufSize with
                   | Ret (c, h') => (Ret c, (fst w, h'))
                   | Panic msg => (Panic msg, w)
                   end
      | OtherT _ => lift (fun _ => Panic "reflect: Elem of invalid type")
      end
  else ret new.

(** [func attachPort(port reflect.Value, dir reflect.ChanDir, ch reflect.Value, bufSize int) (reflect.Value, error)] *)
Definition attachPort (port : Value) (dir : ChanDir) (ch : Value) (bufSize : Z)
  : M (Value * error) :=
  let* t := lift (fun _ => TypeOf port) in
  match validateChanDir t dir with
  | Some e => ret (ch, Some e)
  | None =>
      match validateCanSet port with
      | Some e => ret (ch, Some e)
      | None =>
          let* ch := selectOrMakeChan ch port bufSize in
          exec (fun w => match SetValue (snd w) port ch with
                         | Ret h' => (Ret tt, (fst w, h'))
                         | Panic msg => (Panic msg, w)
                         end) in
          ret (ch, None)
      end
  end.

(** The loop of [findExistingChan] over [n.connections]. *)
Fixpoint findExistingChan_loop (conns : list connection) (addr : address) (dir : ChanDir)
  : Value :=
  match conns with
  | [] => VZero
  | conn :: rest =>
      let a := match dir with SendDir => src conn | _ => tgt conn end in
      if bool_decide (a = addr) then channel conn
      else findExistingChan_loop rest addr dir
  end.

(** [func (n *Graph) findExistingChan(addr address, dir reflect.ChanDir) reflect.Value] *)
Definition findExistingChan (n : Graph) (addr : address) (dir : ChanDir) : Value :=
  findExistingChan_loop (connections n) addr dir.

Definition count_of (n : Graph) (ptr : N) : N :=
  default 0%N (chanListenersCount n !! ptr).

Definition set_count (n : Graph) (ptr cnt : N) : Graph :=
  mkGraph (conf_BufferSize n) (procs n) (connections n)
          (<[ptr := cnt]> (chanListenersCount n)).

(** The parts of the graph no step of the wiring writes. *)
Definition same_registry (n n' : Graph) : Prop :=
  procs n' = procs n /\ conf_BufferSize n' = conf_BufferSize n.

(** The graph after the count of the channel at [ptr] went up by one. *)
Definition counted (n : Graph) (ptr : N) : Graph :=
  set_count n ptr ((count_of n ptr + 1) mod uint_modulus)%N.

(** [func (n *Graph) incChanListenersCount(c reflect.Value)] *)
Definition incChanListenersCount (c : Value) : M unit :=
  let* ptr := lift (fun w => Pointer (snd w) c) in
  fun w =>
    let n := fst w in
    let cnt := count_of n ptr in
    let cnt := ((cnt + 1) mod uint_modulus)%N in
    (Ret tt, (set_count n ptr cnt, snd w)).

(** [func (n *Graph) decChanListenersCount(c reflect.Value) bool] *)
Definition decChanListenersCount (c : Value) : M bool :=
  let* ptr := lift (fun w => Pointer (snd w) c) in
  fun w =>
    let n := fst w in
    let cnt := count_of n ptr in
    if N.eqb cnt 0 then (Ret true, w)
    else
      let cnt := N.pred cnt in
      (Ret (N.eqb cnt 0), (set_count n ptr cnt, snd w)).

Definition add_connection (n : Graph) (c : connection) : Graph :=
  mkGraph (conf_BufferSize n) (procs n) (connections n ++ [c])
          (chanListenersCount n).

(** The channel-reuse part of [ConnectBuf] (from [isNewChan := false] to
    the call of [attachPort]): the channel to attach, zero if none was
    found, and [isNewChan]. *)
Definition reuseChan (sendAddr recvAddr : address) : M (Value * bool) :=
  let* ch := lift (fun w => Ret (findExistingChan (fst w) sendAddr SendDir)) in
  let* none := lift (fun w => invalid_or_nil (snd w) ch) in
  if none then
    let* ch := lift (fun w => Ret (findExistingChan (fst w) recvAddr RecvDir)) in
    let* found := lift (fun w => valid_and_not_nil (snd w) ch) in
    if found then exec incChanListenersCount ch in ret (ch, false)
    else ret (ch, true)
  else ret (ch, false).

(** What [ConnectBuf] does once the channel to attach is chosen. *)
Definition wire (senderName senderPort receiverName receiverPort : string)
    (bufferSize : Z) (sendPort recvPort : Value) (ch : Value) (isNewChan : bool)
  : M error :=
  let sendAddr := parseAddress senderName senderPort in
  let recvAddr := parseAddress receiverName receiverPort in
  let* '(ch, err) := attachPort sendPort SendDir ch bufferSize in
  match err with
  | Some e =>
      ret (Some ("connect '" +:+ senderName +:+ "." +:+ senderPort +:+ "': " +:+ e))
  | None =>
  let* '(_, err) := attachPort recvPort RecvDir ch bufferSize in
  match err with
  | Some e =>
      ret (Some ("connect '" +:+ receiverName +:+ "." +:+ receiverPort +:+ "': " +:+ e))
  | None =>
  exec (if isNewChan then incChanListenersCount ch else ret tt) in
  exec (fun w => (Ret tt, (add_connection (fst w)
                             (mkConnection sendAddr recvAddr ch bufferSize), snd w))) in
  ret None
  end end.

(** [func (n *Graph) ConnectBuf(senderName, senderPort, receiverName, receiverPort string, bufferSize int) error] *)
Definition ConnectBuf (senderName senderPort receiverName receiverPort : string)
    (bufferSize : Z) : M error :=
  let sendAddr := parseAddress senderName senderPort in
  let* '(sendPort, err) := lift (fun w => getProcPort (fst w) senderName senderPort SendDir) in
  match err with
  | Some e => ret (Some ("connect: " +:+ e))
  | None =>
  let recvAddr := parseAddress receiverName receiverPort in
  let* '(recvPort, err) := lift (fun w => getProcPort (fst w) receiverName receiverPort RecvDir) in
  match err with
  | Some e => ret (Some ("connect: " +:+ e))
  | None =>
  let* '(ch, isNewChan) := reuseChan sendAddr recvAddr in
  wire senderName senderPort receiverName receiverPort bufferSize
       sendPort recvPort ch isNewChan
  end end.


(** [k] successive calls of [decChanListenersCount] on the same channel,
    with what each returned. *)
Fixpoint dec_times (k : nat) (c : Value) (w : World) : list (outcome bool) * World :=
  match k with
  | O => ([], w)
  | S k' =>
      let '(r, w1) := decChanListenersCount c w in
      let '(rs, w2) := dec_times k' c w1 in
      (r :: rs, w2)
  end.

(** ** Graphs built by the wiring calls *)

(** A Value that holds a channel ready to be attached: valid, of channel
    kind, not read-only and not nil. *)
Definition usable (h : Heap) (v : Value) : bool :=
  match v with
  | VZero => false
  | VChan t p => is_chan t && negb (N.eqb p 0)
  | VField t ro _ => is_chan t && negb ro && negb (N.eqb (load h v) 0)
  end.

(** Whether a recorded connection has [addr] at the end [dir] looks at. *)
Fixpoint has_match (conns : list connection) (addr : address) (dir : ChanDir) : bool :=
  match conns with
  | [] => false
  | conn :: rest =>
      let a := match dir with SendDir => src conn | _ => tgt conn end in
      bool_decide (a = addr) || has_match rest addr dir
  end.

(** The channel [ConnectBuf] reuses, if it is usable: the one found for
    the sender address, else the one found for the receiver address. *)
Definition found_chan (w : World) (sendAddr recvAddr : address) : Value :=
  let ch := findExistingChan (fst w) sendAddr SendDir in
  if usable (snd w) ch then ch else findExistingChan (fst w) recvAddr RecvDir.

(** The pointer of an allocated channel. *)
Definition live (h : Heap) (p : N) : Prop :=
  (0 < p <= N.of_nat (length (chans h)))%N.

(** What holds of every graph the wiring calls build from one without
    connections: every recorded channel is usable and allocated, every
    port variable is nil or holds an allocated channel, and only
    allocated channels are counted. *)
Record wf (w : World) : Prop := mkWf {
  wf_conns : Forall (fun c => usable (snd w) (channel c) = true /\
                              live (snd w) (load (snd w) (channel c)))
                    (connections (fst w));
  wf_slots : forall l p, slots (snd w) !! l = Some p -> p = 0%N \/ live (snd w) p;
  wf_count : forall p, count_of (fst w) p <> 0%N -> live (snd w) p
}.

(** Every way [attachPort] can go, for a channel that is usable or absent. *)
Inductive attach_case (port : Value) (dir : ChanDir) (ch : Value) (b : Z) (w : World)
  : outcome (Value * error) * World -> Prop :=
  | attach_zero msg :
      port = VZero -> attach_case port dir ch b w (Panic msg, w)
  | attach_fail e :
      attach_error dir e -> attach_case port dir ch b w (Ret (ch, Some e), w)
  | attach_adopt T l :
      port = VField T false l -> usable (snd w) ch = true ->
      attach_case port dir ch b w
        (Ret (ch, None), (fst w, store (snd w) l (load (snd w) ch)))
  | attach_mismatch T l V msg :
      port = VField T false l -> usable (snd w) ch = true ->
      TypeOf ch = Ret V -> assignable T V = false ->
      attach_case port dir ch b w (Panic msg, w)
  | attach_keep d e l :
      port = VField (ChanT d e) false l ->
      invalid_or_nil (snd w) ch = Ret true -> load (snd w) port <> 0%N ->
      attach_case port dir ch b w
        (Ret (port, None), (fst w, store (snd w) l (load (snd w) port)))
  | attach_make d e l :
      port = VField (ChanT d e) false l ->
      invalid_or_nil (snd w) ch = Ret true -> load (snd w) port = 0%N ->
      (0 <= b <= makechan_limit (snd w) e)%Z ->
      attach_case port dir ch b w
        (Ret (VChan (ChanT BothDir e) (next_ptr (snd w)), None),
         (fst w, store (alloc (snd w) e b) l (next_ptr (snd w))))
  | attach_negative d e l msg :
      port = VField (ChanT d e) false l ->
      invalid_or_nil (snd w) ch = Ret true -> load (snd w) port = 0%N ->
      (b < 0)%Z ->
      attach_case port dir ch b w (Panic msg, w)
  | attach_too_large d e l msg :
      port = VField (ChanT d e) false l ->
      invalid_or_nil (snd w) ch = Ret true -> load (snd w) port = 0%N ->
      (makechan_limit (snd w) e < b)%Z ->
      attach_case port dir ch b w (Panic msg, w).

End Wiring.

(** ** Sequences of calls *)

(** The address a lookup in direction [dir] compares: the source of the
    connection for [SendDir], its target otherwise. *)
Definition conn_end (dir : ChanDir) (c : connection) : address :=
  match dir with SendDir => src c | _ => tgt c end.

(** The arguments of one call of [ConnectBuf]. *)
Record call := mkCall {
  c_sender       : string;
  c_senderPort   : string;
  c_receiver     : string;
  c_receiverPort : string;
  c_buffer       : Z
}.

(** The address of an end given by process name, port text and a buffer
    size, and the Connection a call records for it. *)
Definition end_addr (x : string * string * Z) : address :=
  parseAddress (fst (fst x)) (snd (fst x)).

Definition out_connection (sa : address) (ch : Value) (x : string * string * Z)
  : connection :=
  mkConnection sa (end_addr x) ch (snd x).

Definition in_connection (ra : address) (ch : Value) (x : string * string * Z)
  : connection :=
  mkConnection (end_addr x) ra ch (snd x).

Section Sequences.
Context {Net : Type}.
Variable getOutPort : Net -> string -> Value * error.
Variable getInPort : Net -> string -> Value * error.

(** Calls of [ConnectBuf] made one after the other, whatever each of them
    returns. *)
Fixpoint connect_all (calls : list call) (w : @World Net) : @World Net :=
  match calls with
  | [] => w
  | c :: rest =>
      connect_all rest
        (snd (ConnectBuf getOutPort getInPort (c_sender c) (c_senderPort c)
                (c_receiver c) (c_receiverPort c) (c_buffer c) w))
  end.

(** Several senders connected, one after the other, to the same receiver
    port; [None] as soon as a call does not succeed. *)
Fixpoint connect_senders (senders : list (string * string * Z))
    (receiverName receiverPort : string) (w : @World Net) : option (@World Net) :=
  match senders with
  | [] => Some w
  | (s, p, b) :: rest =>
      match ConnectBuf getOutPort getInPort s p receiverName receiverPort b w with
      | (Ret None, w') => connect_senders rest receiverName receiverPort w'
      | _ => None
      end
  end.

(** One sender port connected, one after the other, to several
    receivers; [None] as soon as a call does not succeed. *)
Fixpoint connect_receivers (senderName senderPort : string)
    (receivers : list (string * string * Z)) (w : @World Net) : option (@World Net) :=
  match receivers with
  | [] => Some w
  | (r, q, b) :: rest =>
      match ConnectBuf getOutPort getInPort senderName senderPort r q b w with
      | (Ret None, w') => connect_receivers senderName senderPort rest w'
      | _ => None
      end
  end.

(** [k] successive calls of [incChanListenersCount] on the same channel. *)
Fixpoint inc_times (k : nat) (c : Value) (w : @World Net) : @World Net :=
  match k with
  | O => w
  | S k' => inc_times k' c (snd (incChanListenersCount c w))
  end.

End Sequences.

(** ** A small network for the examples

    Components [A], [B], [C], [D], [E], [X] with channel ports, a value [V]
    registered without a pointer, a component [Cnt] whose type is not a
    struct (a pointer to a named integer type), and a nested network [Sub]
    that exports an out-port ["Out"] and an in-port ["In"]. *)

Definition demoOutPort (net : unit) (name : string) : Value * error :=
  if String.eqb name "Out" then (VField (ChanT SendDir "int") false 20, None)
  else (VZero, Some ("Outport not found: '" +:+ name +:+ "'")).

Definition demoInPort (net : unit) (name : string) : Value * error :=
  if String.eqb name "In" then (VField (ChanT RecvDir "int") false 21, None)
  else (VZero, Some ("Inport not found: '" +:+ name +:+ "'")).

Definition port_field (d : ChanDir) (elem : string) (l : N) : Value :=
  VField (ChanT d elem) false l.

Definition component (fields : list (string * Value)) : @Proc unit :=
  PtrProc (Some (StructP (list_to_map fields))).

Definition demo_procs : gmap string (@Proc unit) :=
  list_to_map
    [("A", component [("Out", port_field SendDir "int" 1)]);
     ("B", component [("In", port_field RecvDir "int" 2);
                      ("Bad", port_field SendDir "int" 6)]);
     ("C", component [("Out", port_field SendDir "int" 3);
                      ("In", port_field RecvDir "int" 4)]);
     ("D", component [("In", port_field RecvDir "string" 7);
                      ("Out", port_field SendDir "string" 8)]);
     ("E", component [("Out", port_field BothDir "int" 9)]);
     ("X", component [("Out", port_field SendDir "int" 5)]);
     ("V", ValueProc);
     ("Cnt", PtrProc (Some OtherP));
     ("Sub", PtrProc (Some (GraphP tt)))].

Definition demo_graph : @Graph unit := mkGraph 0 demo_procs [] ∅.
(** The limits of a 64-bit platform: [maxAlloc] is [2^48], the channel
    header takes 96 bytes, an [int] 8 bytes and a [string] 16. *)
Definition demo_limit (elem : string) : Z :=
  ((2 ^ 48 - 96) / (if String.eqb elem "string" then 16 else 8))%Z.

Definition demo_heap : Heap := mkHeap ∅ [] demo_limit.
Definition demo : @World unit := (demo_graph, demo_heap).

Definition demoConnectBuf := @ConnectBuf unit demoOutPort demoInPort.

(** The network after A.Out -> B.In (size 10), and then after
    A.Out -> C.In or C.Out -> B.In (size 5). *)
Definition demo_AB : @World unit := snd (demoConnectBuf "A" "Out" "B" "In" 10 demo).
Definition demo_AB_AC : @World unit := snd (demoConnectBuf "A" "Out" "C" "In" 5 demo_AB).
Definition demo_AB_CB : @World unit := snd (demoConnectBuf "C" "Out" "B" "In" 5 demo_AB).

(** X.Out -> B.In, then A.Out -> B.In, then A.Out -> C.In. *)
Definition demo_XB : @World unit := snd (demoConnectBuf "X" "Out" "B" "In" 0 demo).
Definition demo_XB_AB : @World unit := snd (demoConnectBuf "A" "Out" "B" "In" 0 demo_XB).
Definition demo_XB_AB_AC : @World unit :=
  snd (demoConnectBuf "A" "Out" "C" "In" 0 demo_XB_AB).

(** C.Out -> C.In, then A.Out -> B.In, then C.Out -> B.In. *)
Definition demo_CC : @World unit := snd (demoConnectBuf "C" "Out" "C" "In" 0 demo).
Definition demo_CC_AB : @World unit := snd (demoConnectBuf "A" "Out" "B" "In" 0 demo_CC).
Definition demo_CC_AB_CB : @World unit :=
  snd (demoConnectBuf "C" "Out" "B" "In" 0 demo_CC_AB).

(** E.Out -> B.Bad (size 10), which fails at the receiver, then
    E.Out -> B.In (size 5). *)
Definition demo_EBad : @World unit := snd (demoConnectBuf "E" "Out" "B" "Bad" 10 demo).
Definition demo_EBad_EB : @World unit :=
  snd (demoConnectBuf "E" "Out" "B" "In" 5 demo_EBad).

(** Calls for the example network, some of which fail. *)
Definition demo_calls : list call :=
  [mkCall "A" "Out" "B" "In" 10; mkCall "B" "In" "C" "In" 0;
   mkCall "E" "Out" "B" "Bad" 3; mkCall "C" "Out" "B" "In" 5;
   mkCall "A" "Out" "D" "In" 0; mkCall "Z" "Out" "B" "In" 0;
   mkCall "E" "Out" "C" "In" (-1)].

(** The channel made first in the example network. *)
Definition chan1 : Value := VChan (ChanT BothDir "int") 1.
Definition chan2 : Value := VChan (ChanT BothDir "int") 2.

(** * Properties *)

(** ** Strings and slices *)

Lemma append_nil (b : string) : "" +:+ b = b.
Proof. reflexivity. Qed.

Lemma append_cons (x : ascii) (a b : string) : String x a +:+ b = String x (a +:+ b).
Proof. reflexivity. Qed.

(** [String.append] does not unfold under [simpl]; its two equations are
    rewritten instead. *)
Ltac unfold_append := rewrite ?append_cons, ?append_nil; simpl.

Lemma length_append (a b : string) :
  String.length (a +:+ b) = String.length a + String.length b.
Proof. induction a as [|c a IH]; unfold_append; [reflexivity | now rewrite IH]. Qed.

Lemma append_assoc (a b c : string) : (a +:+ b) +:+ c = a +:+ (b +:+ c).
Proof. induction a as [|x a IH]; unfold_append; [reflexivity | now rewrite IH]. Qed.

Lemma substring_0_append (a b : string) :
  String.substring 0 (String.length a) (a +:+ b) = a.
Proof.
  induction a as [|c a IH]; unfold_append.
  - now destruct b.
  - now rewrite IH.
Qed.

Lemma substring_skip (a b : string) (m : nat) :
  String.substring (String.length a) m (a +:+ b) = String.substring 0 m b.
Proof. induction a as [|c a IH]; unfold_append; [reflexivity | exact IH]. Qed.

Lemma slice_prefix (a b : string) : slice (a +:+ b) 0 (String.length a) = a.
Proof. unfold slice. rewrite Nat.sub_0_r. apply substring_0_append. Qed.

Lemma slice_middle (a k b : string) :
  slice (a +:+ k +:+ b) (String.length a) (String.length a + String.length k) = k.
Proof.
  unfold slice.
  replace (String.length a + String.length k - String.length a)
    with (String.length k) by lia.
  rewrite substring_skip. apply substring_0_append.
Qed.

Lemma slice_middle_at (a k b : string) (lo hi : nat) :
  lo = String.length a -> hi = String.length a + String.length k ->
  slice (a +:+ k +:+ b) lo hi = k.
Proof. intros -> ->. apply slice_middle. Qed.

Lemma occurs_append (c : ascii) (a b : string) :
  occurs c (a +:+ b) = occurs c a || occurs c b.
Proof.
  induction a as [|x a IH]; unfold_append; [reflexivity |].
  rewrite IH. now rewrite orb_assoc.
Qed.

(** ** The loop of [parseAddress] *)

Lemma parse_loop_append (port r1 r2 : string) (st : parse_state) :
  parse_loop port (r1 +:+ r2) st = parse_loop port r2 (parse_loop port r1 st).
Proof.
  revert st. induction r1 as [|c r1 IH]; intros st; unfold_append; [reflexivity | apply IH].
Qed.

Lemma parse_loop_i (port rest : string) (st : parse_state) :
  ps_i (parse_loop port rest st) = ps_i st + String.length rest.
Proof.
  revert st. induction rest as [|c rest IH]; intros st; simpl; [lia |].
  rewrite IH. unfold parse_step; simpl. lia.
Qed.

(** Without a [[] in the text still to read, the port name and the key
    position stay as they are. *)
Lemma parse_loop_no_lbracket (port rest : string) (st : parse_state) :
  occurs lbracket rest = false ->
  ps_port (parse_loop port rest st) = ps_port st /\
  ps_keyPos (parse_loop port rest st) = ps_keyPos st.
Proof.
  revert st. induction rest as [|c rest IH]; intros st H; simpl in *; [auto |].
  apply orb_false_elim in H as [Hc Hr].
  destruct (IH (parse_step port st c) Hr) as [-> ->].
  unfold parse_step. rewrite Hc. destruct (Ascii.eqb c rbracket); auto.
Qed.

(** Without a []] in the text still to read, the key stays as it is. *)
Lemma parse_loop_no_rbracket (port rest : string) (st : parse_state) :
  occurs rbracket rest = false ->
  ps_key (parse_loop port rest st) = ps_key st.
Proof.
  revert st. induction rest as [|c rest IH]; intros st H; simpl in *; [auto |].
  apply orb_false_elim in H as [Hc Hr].
  rewrite (IH _ Hr). unfold parse_step. rewrite Hc.
  destruct (Ascii.eqb c lbracket); auto.
Qed.

(** The key position never runs ahead of the index, so the slice
    [port[keyPos:i]] is always in range. *)
Lemma parse_loop_keyPos_le (port rest : string) (st : parse_state) :
  ps_keyPos st <= ps_i st ->
  ps_keyPos (parse_loop port rest st) <= ps_i (parse_loop port rest st).
Proof.
  revert st. induction rest as [|c rest IH]; intros st H; simpl; [exact H |].
  apply IH. unfold parse_step.
  destruct (Ascii.eqb c lbracket), (Ascii.eqb c rbracket); simpl; lia.
Qed.

Lemma parse_loop_lb (port : string) (st : parse_state) :
  parse_loop port lb st =
  mkPS (ps_i st + 1) (ps_i st + 1) (slice port 0 (ps_i st)) (ps_key st).
Proof. reflexivity. Qed.

Lemma parse_loop_rb (port : string) (st : parse_state) :
  parse_loop port rb st =
  mkPS (ps_i st + 1) (ps_keyPos st) (ps_port st) (slice port (ps_keyPos st) (ps_i st)).
Proof. reflexivity. Qed.

(** The state after a text whose last [[] is followed by [t]. *)
Lemma parse_loop_last_lbracket (port a t : string) (st : parse_state) :
  occurs lbracket t = false ->
  let st' := parse_loop port (a +:+ lb +:+ t) st in
  ps_port st' = slice port 0 (ps_i st + String.length a) /\
  ps_keyPos st' = ps_i st + String.length a + 1.
Proof.
  intros Ht st'. subst st'.
  rewrite parse_loop_append, parse_loop_append.
  destruct (parse_loop_no_lbracket port t
              (parse_loop port lb (parse_loop port a st)) Ht) as [-> ->].
  rewrite parse_loop_lb. simpl. rewrite parse_loop_i. auto.
Qed.

(** The key after a text whose last []] is preceded by [b]. *)
Lemma parse_loop_last_rbracket (port b t : string) (st : parse_state) :
  occurs rbracket t = false ->
  ps_key (parse_loop port (b +:+ rb +:+ t) st) =
  slice port (ps_keyPos (parse_loop port b st)) (ps_i st + String.length b).
Proof.
  intros Ht.
  rewrite parse_loop_append, parse_loop_append.
  rewrite (parse_loop_no_rbracket _ _ _ Ht).
  rewrite parse_loop_rb. simpl. now rewrite parse_loop_i.
Qed.

Lemma parseAddress_fields (proc port : string) :
  parseAddress proc port =
  mkAddress proc (ps_port (parse_loop port port (init_state port)))
            (ps_key (parse_loop port port (init_state port))).
Proof.
  unfold parseAddress, init_state.
  destruct (String.eqb_spec (ps_key (parse_loop port port (mkPS 0 0 port ""))) "") as [-> | _];
    reflexivity.
Qed.

(** The port name: the whole text without a [[], else what precedes the
    last [[]. *)
Lemma parseAddress_port_whole (proc port : string) :
  occurs lbracket port = false -> a_port (parseAddress proc port) = port.
Proof.
  intros H. rewrite parseAddress_fields. simpl.
  now destruct (parse_loop_no_lbracket port port (init_state port) H) as [-> _].
Qed.

Lemma parseAddress_port_last (proc a t : string) :
  occurs lbracket t = false ->
  a_port (parseAddress proc (a +:+ lb +:+ t)) = a.
Proof.
  intros H. rewrite parseAddress_fields. simpl.
  destruct (parse_loop_last_lbracket (a +:+ lb +:+ t) a t
              (init_state (a +:+ lb +:+ t)) H) as [-> _].
  simpl. apply slice_prefix.
Qed.

(** The key: empty without a []]; else it ends at the last []] and starts
    after the last [[] before it, or at the start of the text. *)
Lemma parseAddress_key_none (proc port : string) :
  occurs rbracket port = false -> a_key (parseAddress proc port) = "".
Proof.
  intros H. rewrite parseAddress_fields. simpl.
  now rewrite (parse_loop_no_rbracket _ _ _ H).
Qed.

Lemma parseAddress_key_from_start (proc k t : string) :
  occurs lbracket k = false -> occurs rbracket t = false ->
  a_key (parseAddress proc (k +:+ rb +:+ t)) = k.
Proof.
  intros Hk Ht. rewrite parseAddress_fields. simpl.
  rewrite (parse_loop_last_rbracket _ _ _ _ Ht).
  destruct (parse_loop_no_lbracket (k +:+ rb +:+ t) k
              (init_state (k +:+ rb +:+ t)) Hk) as [_ ->].
  simpl. apply slice_prefix.
Qed.

Lemma parseAddress_key_bracketed (proc a k t : string) :
  occurs lbracket k = false -> occurs rbracket t = false ->
  a_key (parseAddress proc (a +:+ lb +:+ k +:+ rb +:+ t)) = k.
Proof.
  intros Hk Ht. rewrite parseAddress_fields. simpl.
  set (port := a +:+ lb +:+ k +:+ rb +:+ t).
  assert (E : port = (a +:+ lb +:+ k) +:+ rb +:+ t).
  { subst port. now rewrite !append_assoc. }
  rewrite E at 2.
  rewrite (parse_loop_last_rbracket _ _ _ _ Ht).
  destruct (parse_loop_last_lbracket port a k (init_state port) Hk) as [_ ->].
  subst port.
  replace (a +:+ lb +:+ k +:+ rb +:+ t) with ((a +:+ lb) +:+ k +:+ (rb +:+ t))
    by now rewrite !append_assoc.
  apply slice_middle_at; rewrite !length_append; simpl; lia.
Qed.

Lemma parseAddress_proc (proc port : string) : a_proc (parseAddress proc port) = proc.
Proof. now rewrite parseAddress_fields. Qed.

Lemma address_eq (x : address) (p q k : string) :
  a_proc x = p -> a_port x = q -> a_key x = k -> x = mkAddress p q k.
Proof. destruct x; simpl; congruence. Qed.

Example parseAddress_plain : parseAddress "P" "In" = mkAddress "P" "In" "".
Proof. reflexivity. Qed.

Example parseAddress_indexed : parseAddress "P" "In[5]" = mkAddress "P" "In" "5".
Proof. reflexivity. Qed.

Example parseAddress_stray_rbracket : parseAddress "P" "a]b[c" = mkAddress "P" "a]b" "a".
Proof. reflexivity. Qed.

(** C6, as stated, fails: on a text with two [[] the code splits at the
    last one, where the claim has the port name end at the first [[] and
    the key start there: for ["a[b[c]"] the code returns port ["a[b"] and
    key ["c"], not port ["a"] and key ["b[c"]. *)
Lemma parseAddress_first_bracket_fails :
  parseAddress "P" "a[b[c]" = mkAddress "P" "a[b" "c" /\
  parseAddress_first_bracket "P" "a[b[c]" = mkAddress "P" "a" "b[c" /\
  parseAddress "P" "a[b[c]" <> parseAddress_first_bracket "P" "a[b[c]".
Proof. repeat split; discriminate. Qed.

(** C6 (amended): [parseAddress] keeps the process name; a text without
    any bracket is the port name, with an empty key; otherwise the port
    name is everything before the LAST [[] (the whole text if there is
    none), and the key is empty without a []], else it is the verbatim
    substring that ends at the last []] and starts just after the last [[]
    before that []] (at the start of the text if there is none); so a text
    [a[k]t] whose last [[] and last []] are the ones shown gives port [a]
    and key [k]; [parseAddress("P","In")] and [parseAddress("P","In[5]")]
    are as the claim gives them. *)
Theorem parseAddress_last_bracket :
  (forall proc port, a_proc (parseAddress proc port) = proc) /\
  (forall proc port,
      occurs lbracket port = false -> occurs rbracket port = false ->
      parseAddress proc port = mkAddress proc port "") /\
  (forall proc port,
      occurs lbracket port = false -> a_port (parseAddress proc port) = port) /\
  (forall proc a t,
      occurs lbracket t = false ->
      a_port (parseAddress proc (a +:+ "[" +:+ t)) = a) /\
  (forall proc port,
      occurs rbracket port = false -> a_key (parseAddress proc port) = "") /\
  (forall proc a k t,
      occurs lbracket k = false -> occurs rbracket t = false ->
      a_key (parseAddress proc (a +:+ "[" +:+ k +:+ "]" +:+ t)) = k) /\
  (forall proc k t,
      occurs lbracket k = false -> occurs rbracket t = false ->
      a_key (parseAddress proc (k +:+ "]" +:+ t)) = k) /\
  (forall proc a k t,
      occurs lbracket k = false -> occurs lbracket t = false ->
      occurs rbracket t = false ->
      parseAddress proc (a +:+ "[" +:+ k +:+ "]" +:+ t) = mkAddress proc a k) /\
  parseAddress "P" "In" = mkAddress "P" "In" "" /\
  parseAddress "P" "In[5]" = mkAddress "P" "In" "5".
Proof.
  split; [exact parseAddress_proc |].
  split.
  { intros proc port Hl Hr. apply address_eq.
    - apply parseAddress_proc.
    - now apply parseAddress_port_whole.
    - now apply parseAddress_key_none. }
  split; [exact parseAddress_port_whole |].
  split; [exact parseAddress_port_last |].
  split; [exact parseAddress_key_none |].
  split; [exact parseAddress_key_bracketed |].
  split; [exact parseAddress_key_from_start |].
  split; [| split; reflexivity].
  intros proc a k t Hk Hlt Hrt. apply address_eq.
  - apply parseAddress_proc.
  - apply (parseAddress_port_last proc a (k +:+ rb +:+ t)).
    rewrite !occurs_append, Hk, Hlt. reflexivity.
  - now apply parseAddress_key_bracketed.
Qed.

Lemma parseAddress_last_bracket_witness :
  parseAddress "P" ("a[b" +:+ "[" +:+ "c" +:+ "]" +:+ "") = mkAddress "P" "a[b" "c" /\
  a_key (parseAddress "P" ("a" +:+ "]" +:+ "b[c")) = "a" /\
  parseAddress "P" "Out" = mkAddress "P" "Out" "".
Proof.
  destruct parseAddress_last_bracket as (_ & Hplain & _ & _ & _ & _ & Hstart & Hfull & _).
  split; [| split].
  - apply Hfull; reflexivity.
  - apply Hstart; reflexivity.
  - apply Hplain; reflexivity.
Defined.

(** ** Address equality and channel lookup *)

Section Lookup.
Context {Net : Type}.

(** C9: for every process name [p], [parseAddress(p, "In[]")] and
    [parseAddress(p, "In[")] are the address [parseAddress(p, "In")], with
    port ["In"] and an empty key; so [findExistingChan] returns the same
    channel for the three of them, in every graph and direction. *)
Theorem parseAddress_empty_bracket (p : string) :
  parseAddress p "In[]" = parseAddress p "In" /\
  parseAddress p "In[" = parseAddress p "In" /\
  parseAddress p "In" = mkAddress p "In" "" /\
  (forall (n : @Graph Net) (dir : ChanDir),
      findExistingChan n (parseAddress p "In[]") dir =
        findExistingChan n (parseAddress p "In") dir /\
      findExistingChan n (parseAddress p "In[") dir =
        findExistingChan n (parseAddress p "In") dir).
Proof.
  assert (E1 : parseAddress p "In[]" = mkAddress p "In" "") by reflexivity.
  assert (E2 : parseAddress p "In[" = mkAddress p "In" "") by reflexivity.
  assert (E3 : parseAddress p "In" = mkAddress p "In" "") by reflexivity.
  rewrite E1, E2, E3. repeat split.
Qed.

End Lookup.

(** ** The listener counters *)

Section Counters.
Context {Net : Type}.
Implicit Types (w : @World Net) (c : Value) (ptr : N).

Lemma count_of_set_count (n : @Graph Net) (ptr cnt q : N) :
  count_of (set_count n ptr cnt) q = if decide (ptr = q) then cnt else count_of n q.
Proof.
  unfold count_of, set_count; simpl. rewrite lookup_insert.
  now destruct (decide (ptr = q)).
Qed.

Lemma incChanListenersCount_eq w c ptr :
  Pointer (snd w) c = Ret ptr ->
  incChanListenersCount c w =
  (Ret tt, (set_count (fst w) ptr ((count_of (fst w) ptr + 1) mod uint_modulus)%N, snd w)).
Proof. intros H. unfold incChanListenersCount, bind, lift. now rewrite H. Qed.

Lemma decChanListenersCount_zero w c ptr :
  Pointer (snd w) c = Ret ptr -> count_of (fst w) ptr = 0%N ->
  decChanListenersCount c w = (Ret true, w).
Proof.
  intros H H0. unfold decChanListenersCount, bind, lift. rewrite H. simpl.
  now rewrite H0.
Qed.

Lemma decChanListenersCount_pos w c ptr :
  Pointer (snd w) c = Ret ptr -> count_of (fst w) ptr <> 0%N ->
  decChanListenersCount c w =
  (Ret (N.eqb (N.pred (count_of (fst w) ptr)) 0),
   (set_count (fst w) ptr (N.pred (count_of (fst w) ptr)), snd w)).
Proof.
  intros H H0. unfold decChanListenersCount, bind, lift. rewrite H. simpl.
  destruct (N.eqb_spec (count_of (fst w) ptr) 0); [contradiction | reflexivity].
Qed.

(** Of [m + 1] decrements of a count [m + 1], the first [m] return false
    and the last returns true, leaving the count at zero. *)
Lemma dec_times_count (m : nat) : forall w c ptr,
  Pointer (snd w) c = Ret ptr ->
  count_of (fst w) ptr = N.of_nat (S m) ->
  fst (dec_times (S m) c w) = (repeat (Ret false) m ++ [Ret true])%list /\
  count_of (fst (snd (dec_times (S m) c w))) ptr = 0%N.
Proof.
  induction m as [|m IH]; intros w c ptr Hp Hc.
  - simpl. rewrite (decChanListenersCount_pos w c ptr Hp) by (rewrite Hc; lia).
    rewrite Hc. simpl. split; [reflexivity |].
    rewrite count_of_set_count. now rewrite decide_True.
  - change (dec_times (S (S m)) c w)
      with (let '(r, w1) := decChanListenersCount c w in
            let '(rs, w2) := dec_times (S m) c w1 in (r :: rs, w2)).
    rewrite (decChanListenersCount_pos w c ptr Hp) by (rewrite Hc; lia).
    set (w1 := (set_count (fst w) ptr (N.pred (count_of (fst w) ptr)), snd w)).
    assert (Hc1 : count_of (fst w1) ptr = N.of_nat (S m)).
    { subst w1. simpl. rewrite count_of_set_count, decide_True by reflexivity.
      rewrite Hc. lia. }
    destruct (IH w1 c ptr Hp Hc1) as [E1 E2].
    destruct (dec_times (S m) c w1) as [rs w2]. simpl in *.
    rewrite E1. split; [| exact E2].
    f_equal. f_equal. apply N.eqb_neq. rewrite Hc. lia.
Qed.

(** C4: [decChanListenersCount] returns true exactly when the stored
    count of the channel is zero after the call; called with the count at
    0 it returns true and changes nothing; and for a count [N >= 1], of [N]
    successive decrements the first [N - 1] return false and the [N]-th
    returns true. *)
Theorem decChanListenersCount_reaches_zero w c ptr :
  Pointer (snd w) c = Ret ptr ->
  (exists b w',
      decChanListenersCount c w = (Ret b, w') /\
      (b = true <-> count_of (fst w') ptr = 0%N) /\
      snd w' = snd w /\
      (count_of (fst w) ptr = 0%N -> b = true /\ w' = w) /\
      (count_of (fst w) ptr <> 0%N ->
         count_of (fst w') ptr = N.pred (count_of (fst w) ptr))) /\
  (forall k : nat,
      1 <= k -> count_of (fst w) ptr = N.of_nat k ->
      fst (dec_times k c w) = (repeat (Ret false) (k - 1) ++ [Ret true])%list).
Proof.
  intros Hp. split.
  - destruct (N.eq_dec (count_of (fst w) ptr) 0%N) as [H0 | H0].
    + exists true, w. rewrite (decChanListenersCount_zero w c ptr Hp H0).
      repeat split; auto. contradiction.
    + eexists _, _. rewrite (decChanListenersCount_pos w c ptr Hp H0).
      split; [reflexivity |]. simpl.
      rewrite count_of_set_count, decide_True by reflexivity.
      repeat split; try contradiction; auto.
      * intros H. now apply N.eqb_eq.
      * intros H. now apply N.eqb_eq.
  - intros k Hk Hc. destruct k as [|m]; [lia |].
    replace (S m - 1) with m by lia.
    now destruct (dec_times_count m w c ptr Hp Hc).
Qed.

End Counters.

Lemma decChanListenersCount_reaches_zero_witness :
  let c := VChan (ChanT BothDir "int") 1 in
  let w : @World unit := (mkGraph 0 demo_procs [] {[ 1%N := 3%N ]}, demo_heap) in
  fst (dec_times 3 c w) = [Ret false; Ret false; Ret true].
Proof.
  intros c w.
  apply (proj2 (decChanListenersCount_reaches_zero w c 1%N eq_refl) 3); [lia | reflexivity].
Defined.

(** ** Port resolution *)

Section Resolver.
Context {Net : Type}.
Variable getOutPort : Net -> string -> Value * error.
Variable getInPort : Net -> string -> Value * error.

Local Abbreviation resolve := (getProcPort getOutPort getInPort).

(** C8 (amended): [getProcPort] fails with "process not found" when the
    name is not registered, with "not settable" when the registered value
    is not a non-nil pointer, and, when it is a pointer to a struct, with
    "does not have port" when the struct has no member of that name; a
    member that exists is returned whatever its type and whatever the
    direction asked for; for a nested [Graph] the answer is that of its
    [getOutPort] for the Send direction and of its [getInPort] for the
    Receive direction; and for a pointer to a value that is neither a
    struct nor a [Graph] the member lookup panics in [FieldByName],
    whatever port is named. *)
Theorem getProcPort_resolves (n : @Graph Net) (procName portName : string) :
  (procs n !! procName = None ->
   forall dir, resolve n procName portName dir =
     Ret (VZero, Some ("process '" +:+ procName +:+ "' not found"))) /\
  (forall proc,
      procs n !! procName = Some proc ->
      proc = NilProc \/ proc = ValueProc \/ proc = PtrProc None ->
      forall dir, resolve n procName portName dir =
        Ret (VZero, Some ("process '" +:+ procName +:+ "' is not settable"))) /\
  (forall fields,
      procs n !! procName = Some (PtrProc (Some (StructP fields))) ->
      fields !! portName = None ->
      forall dir, resolve n procName portName dir =
        Ret (VZero, Some ("process '" +:+ procName +:+ "' does not have port '"
                          +:+ portName +:+ "'"))) /\
  (forall fields v,
      procs n !! procName = Some (PtrProc (Some (StructP fields))) ->
      fields !! portName = Some v -> IsValid v = true ->
      forall dir, resolve n procName portName dir = Ret (v, None)) /\
  (forall net,
      procs n !! procName = Some (PtrProc (Some (GraphP net))) ->
      resolve n procName portName SendDir =
        exported procName portName (getOutPort net portName) /\
      resolve n procName portName RecvDir =
        exported procName portName (getInPort net portName)) /\
  (procs n !! procName = Some (PtrProc (Some OtherP)) ->
   forall dir, resolve n procName portName dir =
     Panic "reflect: call of reflect.Value.FieldByName on non-struct Value").
Proof.
  unfold getProcPort, exported.
  split; [intros -> dir; reflexivity |].
  split; [intros proc -> [-> | [-> | ->]] dir; reflexivity |].
  split; [intros fields -> -> dir; reflexivity |].
  split; [intros fields v -> -> Hv dir; simpl; now rewrite Hv |].
  split; [| intros -> dir; reflexivity].
  intros net ->. split.
  - destruct (getOutPort net portName) as [v [e |]]; reflexivity.
  - destruct (getInPort net portName) as [v [e |]]; reflexivity.
Qed.

End Resolver.

(** C8, as stated, fails: a registered component need not be a struct.
    [Cnt] is a pointer to a value of a named integer type; it is settable
    and the member ["Out"] is absent, but the lookup does not return the
    port-not-found error: [FieldByName] panics. *)
Lemma getProcPort_non_struct_panics :
  procs demo_graph !! "Cnt" = Some (PtrProc (Some OtherP)) /\
  getProcPort demoOutPort demoInPort demo_graph "Cnt" "Out" SendDir =
    Panic "reflect: call of reflect.Value.FieldByName on non-struct Value" /\
  getProcPort demoOutPort demoInPort demo_graph "Cnt" "In" RecvDir =
    Panic "reflect: call of reflect.Value.FieldByName on non-struct Value" /\
  getProcPort demoOutPort demoInPort demo_graph "Cnt" "Out" SendDir <>
    Ret (VZero, Some "process 'Cnt' does not have port 'Out'") /\
  fst (demoConnectBuf "Cnt" "Out" "B" "In" 0 demo) =
    Panic "reflect: call of reflect.Value.FieldByName on non-struct Value".
Proof. vm_compute. repeat split; congruence. Qed.

Lemma getProcPort_resolves_witness :
  getProcPort demoOutPort demoInPort demo_graph "Z" "Out" SendDir =
    Ret (VZero, Some "process 'Z' not found") /\
  getProcPort demoOutPort demoInPort demo_graph "V" "Out" SendDir =
    Ret (VZero, Some "process 'V' is not settable") /\
  getProcPort demoOutPort demoInPort demo_graph "A" "In" RecvDir =
    Ret (VZero, Some "process 'A' does not have port 'In'") /\
  getProcPort demoOutPort demoInPort demo_graph "B" "In" SendDir =
    Ret (port_field RecvDir "int" 2, None) /\
  getProcPort demoOutPort demoInPort demo_graph "Sub" "Out" SendDir =
    Ret (VField (ChanT SendDir "int") false 20, None) /\
  getProcPort demoOutPort demoInPort demo_graph "Sub" "Out" RecvDir =
    Ret (VZero, Some "process 'Sub' does not have port 'Out'") /\
  getProcPort demoOutPort demoInPort demo_graph "Cnt" "Out" SendDir =
    Panic "reflect: call of reflect.Value.FieldByName on non-struct Value".
Proof.
  destruct (getProcPort_resolves demoOutPort demoInPort demo_graph "Z" "Out")
    as (Hnone & _).
  destruct (getProcPort_resolves demoOutPort demoInPort demo_graph "V" "Out")
    as (_ & Hset & _).
  destruct (getProcPort_resolves demoOutPort demoInPort demo_graph "A" "In")
    as (_ & _ & Hport & _).
  destruct (getProcPort_resolves demoOutPort demoInPort demo_graph "B" "In")
    as (_ & _ & _ & Hfield & _).
  destruct (getProcPort_resolves demoOutPort demoInPort demo_graph "Sub" "Out")
    as (_ & _ & _ & _ & Hnet & _).
  destruct (getProcPort_resolves demoOutPort demoInPort demo_graph "Cnt" "Out")
    as (_ & _ & _ & _ & _ & Hother).
  split; [apply Hnone; reflexivity |].
  split; [apply (Hset ValueProc); [reflexivity | auto] |].
  split; [eapply Hport; reflexivity |].
  split; [eapply Hfield; reflexivity |].
  destruct (Hnet tt eq_refl) as [Hout Hin].
  split; [exact Hout |]. split; [exact Hin |].
  apply Hother. reflexivity.
Defined.

(** ** Attaching a channel to a port *)

Section Attach.
Context {Net : Type}.
Implicit Types (w : @World Net) (h : Heap) (ch port : Value).

Ltac run := unfold bind, lift, ret; simpl.

Lemma usable_valid h ch : usable h ch = true -> IsValid ch = true.
Proof. now destruct ch. Qed.

Lemma usable_type h ch :
  usable h ch = true -> exists d e, TypeOf ch = Ret (ChanT d e).
Proof.
  destruct ch as [| [d e | s] p | [d e | s] ro l]; simpl; try discriminate; eauto.
Qed.

Lemma usable_load h ch : usable h ch = true -> load h ch <> 0%N.
Proof.
  destruct ch as [| t p | t ro l]; simpl; try discriminate.
  - intros H%andb_true_iff. destruct H as [_ H].
    now apply negb_true_iff, N.eqb_neq in H.
  - intros H%andb_true_iff. destruct H as [_ H].
    now apply negb_true_iff, N.eqb_neq in H.
Qed.

Lemma usable_not_nil h ch : usable h ch = true -> invalid_or_nil h ch = Ret false.
Proof.
  intros H. pose proof (usable_load h ch H) as Hl.
  destruct ch as [| [d e | s] p | [d e | s] ro l]; simpl in *; try discriminate;
    unfold invalid_or_nil; simpl; f_equal; now apply N.eqb_neq.
Qed.

Lemma usable_found h ch : usable h ch = true -> valid_and_not_nil h ch = Ret true.
Proof.
  intros H. pose proof (usable_load h ch H) as Hl.
  destruct ch as [| [d e | s] p | [d e | s] ro l]; simpl in *; try discriminate;
    unfold valid_and_not_nil; simpl; f_equal; apply negb_true_iff; now apply N.eqb_neq.
Qed.

Lemma usable_pointer h ch : usable h ch = true -> Pointer h ch = Ret (load h ch).
Proof.
  destruct ch as [| [d e | s] p | [d e | s] ro l]; simpl; try discriminate; reflexivity.
Qed.

Lemma not_found_zero h : invalid_or_nil h VZero = Ret true /\ valid_and_not_nil h VZero = Ret false.
Proof. split; reflexivity. Qed.

Lemma attachPort_zero_port dir ch b w :
  fst (attachPort VZero dir ch b w) = Panic "reflect: call of reflect.Value.Type on zero Value" /\
  snd (attachPort VZero dir ch b w) = w.
Proof. split; reflexivity. Qed.

(** A port that fails a validation leaves everything as it is. *)
Lemma attachPort_invalid_dir port t e dir ch b w :
  TypeOf port = Ret t -> validateChanDir t dir = Some e ->
  attachPort port dir ch b w = (Ret (ch, Some e), w).
Proof. intros Ht Hv. unfold attachPort. run. rewrite Ht. simpl. now rewrite Hv. Qed.

Lemma attachPort_not_settable port t dir ch b w :
  TypeOf port = Ret t -> validateChanDir t dir = None -> CanSet port = false ->
  attachPort port dir ch b w = (Ret (ch, Some "port is not assignable"), w).
Proof.
  intros Ht Hv Hs. unfold attachPort. run. rewrite Ht. simpl. rewrite Hv.
  unfold validateCanSet. now rewrite Hs.
Qed.

(** A settable port of the right direction adopts a usable channel whose
    type can be assigned to it ... *)
Lemma attachPort_adopt T l dir ch V b w :
  validateChanDir T dir = None ->
  usable (snd w) ch = true -> TypeOf ch = Ret V -> assignable T V = true ->
  attachPort (VField T false l) dir ch b w =
  (Ret (ch, None), (fst w, store (snd w) l (load (snd w) ch))).
Proof.
  intros Hv Hu Ht Ha. unfold attachPort, selectOrMakeChan, bind, lift, ret, TypeOf.
  rewrite Hv. simpl.
  rewrite (usable_not_nil _ _ Hu). simpl.
  destruct ch as [| V' p | V' [|] l']; simpl in *; try discriminate.
  - injection Ht as ->. now rewrite Ha.
  - rewrite andb_false_r in Hu. discriminate.
  - injection Ht as ->. now rewrite Ha.
Qed.

(** ... and panics in [Set] when it cannot. *)
Lemma attachPort_mismatch T l dir ch V b w :
  validateChanDir T dir = None ->
  usable (snd w) ch = true -> TypeOf ch = Ret V -> assignable T V = false ->
  attachPort (VField T false l) dir ch b w =
  (Panic "reflect.Set: value is not assignable to type", w).
Proof.
  intros Hv Hu Ht Ha. unfold attachPort, selectOrMakeChan, bind, lift, ret, TypeOf.
  rewrite Hv. simpl.
  rewrite (usable_not_nil _ _ Hu). simpl.
  destruct ch as [| V' p | V' [|] l']; simpl in *; try discriminate.
  - injection Ht as ->. now rewrite Ha.
  - rewrite andb_false_r in Hu. discriminate.
  - injection Ht as ->. now rewrite Ha.
Qed.

Lemma assignable_refl T : assignable T T = true.
Proof. unfold assignable. now rewrite bool_decide_eq_true_2. Qed.

Lemma assignable_both d e : assignable (ChanT d e) (ChanT BothDir e) = true.
Proof. unfold assignable. simpl. rewrite String.eqb_refl. apply orb_true_r. Qed.

(** Without a channel to adopt, a port that holds a channel keeps it ... *)
Lemma attachPort_keep d e l dir ch b w :
  validateChanDir (ChanT d e) dir = None ->
  invalid_or_nil (snd w) ch = Ret true ->
  load (snd w) (VField (ChanT d e) false l) <> 0%N ->
  attachPort (VField (ChanT d e) false l) dir ch b w =
  (Ret (VField (ChanT d e) false l, None),
   (fst w, store (snd w) l (load (snd w) (VField (ChanT d e) false l)))).
Proof.
  intros Hv Hn Hl. unfold attachPort, selectOrMakeChan, bind, lift, ret, TypeOf.
  rewrite Hv. simpl.
  rewrite Hn. simpl. unfold valid_and_not_nil. simpl.
  apply N.eqb_neq in Hl. simpl in Hl. rewrite Hl. simpl.
  now rewrite assignable_refl.
Qed.

(** ... and a port that holds none gets a new channel of the requested
    size and of its own element type, when the runtime can make one. *)
Lemma attachPort_make d e l dir ch b w :
  validateChanDir (ChanT d e) dir = None ->
  invalid_or_nil (snd w) ch = Ret true ->
  load (snd w) (VField (ChanT d e) false l) = 0%N ->
  (0 <= b <= makechan_limit (snd w) e)%Z ->
  attachPort (VField (ChanT d e) false l) dir ch b w =
  (Ret (VChan (ChanT BothDir e) (next_ptr (snd w)), None),
   (fst w, store (alloc (snd w) e b) l (next_ptr (snd w)))).
Proof.
  intros Hv Hn Hl Hb. unfold attachPort, selectOrMakeChan, bind, lift, ret, TypeOf.
  rewrite Hv. simpl.
  rewrite Hn. simpl. unfold valid_and_not_nil. simpl.
  simpl in Hl. rewrite Hl. simpl. unfold MakeChan.
  destruct (Z.ltb_spec b 0) as [Hlt | _]; [lia |].
  destruct (Z.ltb_spec (makechan_limit (snd w) e) b) as [Hlt | _]; [lia |]. simpl.
  now rewrite assignable_both.
Qed.

Lemma attachPort_too_large d e l dir ch b w :
  validateChanDir (ChanT d e) dir = None ->
  invalid_or_nil (snd w) ch = Ret true ->
  load (snd w) (VField (ChanT d e) false l) = 0%N ->
  (0 <= b)%Z -> (makechan_limit (snd w) e < b)%Z ->
  attachPort (VField (ChanT d e) false l) dir ch b w =
  (Panic "makechan: size out of range", w).
Proof.
  intros Hv Hn Hl Hb Hc. unfold attachPort, selectOrMakeChan, bind, lift, ret, TypeOf.
  rewrite Hv. simpl.
  rewrite Hn. simpl. unfold valid_and_not_nil. simpl.
  simpl in Hl. rewrite Hl. simpl. unfold MakeChan.
  destruct (Z.ltb_spec b 0) as [Hlt | _]; [lia |].
  destruct (Z.ltb_spec (makechan_limit (snd w) e) b) as [_ | Hge]; [reflexivity | lia].
Qed.

Lemma attachPort_negative d e l dir ch b w :
  validateChanDir (ChanT d e) dir = None ->
  invalid_or_nil (snd w) ch = Ret true ->
  load (snd w) (VField (ChanT d e) false l) = 0%N ->
  (b < 0)%Z ->
  attachPort (VField (ChanT d e) false l) dir ch b w =
  (Panic "reflect.MakeChan: negative buffer size", w).
Proof.
  intros Hv Hn Hl Hb. unfold attachPort, selectOrMakeChan, bind, lift, ret, TypeOf.
  rewrite Hv. simpl.
  rewrite Hn. simpl. unfold valid_and_not_nil. simpl.
  simpl in Hl. rewrite Hl. simpl. unfold MakeChan.
  destruct (Z.ltb_spec b 0) as [_ | Hge]; [reflexivity | lia].
Qed.

End Attach.

(** ** The invariant of the wiring calls *)

Section Invariant.
Context {Net : Type}.
Implicit Types (w : @World Net) (n : @Graph Net) (h : Heap) (ch port : Value).

Lemma live_alloc h e b p : live h p -> live (alloc h e b) p.
Proof. unfold live, alloc; simpl. rewrite length_app. simpl. lia. Qed.

Lemma live_next h e b : live (alloc h e b) (next_ptr h).
Proof. unfold live, alloc, next_ptr; simpl. rewrite length_app. simpl. lia. Qed.

Lemma next_not_live h : ~ live h (next_ptr h).
Proof. unfold live, next_ptr. lia. Qed.

Lemma load_store h l p v :
  load (store h l p) v =
  match v with
  | VField _ _ l' => if decide (l = l') then p else load h v
  | _ => load h v
  end.
Proof.
  destruct v as [| t q | t ro l']; simpl; try reflexivity.
  rewrite lookup_insert. now destruct (decide (l = l')).
Qed.

Lemma usable_store h l p v :
  p <> 0%N -> usable h v = true -> usable (store h l p) v = true.
Proof.
  intros Hp. destruct v as [| t q | t ro l']; simpl; auto.
  rewrite lookup_insert. destruct (decide (l = l')); simpl; auto.
  intros H%andb_true_iff. destruct H as [H _]. rewrite H. simpl.
  now apply negb_true_iff, N.eqb_neq.
Qed.

Lemma usable_alloc h e b v : usable (alloc h e b) v = usable h v.
Proof. now destruct v. Qed.

Lemma load_alloc h e b v : load (alloc h e b) v = load h v.
Proof. now destruct v. Qed.

Lemma wf_store n h l p :
  wf (n, h) -> p <> 0%N -> live h p -> wf (n, store h l p).
Proof.
  intros [Hc Hs Hk] Hp Hl. simpl in *. constructor; simpl.
  - eapply Forall_impl; [exact Hc |]. intros c [Hu Hv]. split.
    + now apply usable_store.
    + rewrite load_store. destruct (channel c) as [| t q | t ro l']; auto.
      destruct (decide (l = l')); auto.
  - intros l' q. rewrite lookup_insert. destruct (decide (l = l')).
    + intros [= <-]. now right.
    + apply Hs.
  - exact Hk.
Qed.

Lemma wf_alloc n h e b : wf (n, h) -> wf (n, alloc h e b).
Proof.
  intros [Hc Hs Hk]. simpl in *. constructor; simpl.
  - eapply Forall_impl; [exact Hc |]. intros c [Hu Hv].
    rewrite usable_alloc, load_alloc. split; [exact Hu | now apply live_alloc].
  - intros l q Hq. destruct (Hs l q Hq); [now left | right; now apply live_alloc].
  - intros q Hq. apply live_alloc. now apply Hk.
Qed.

Lemma wf_set_count n h ptr cnt : wf (n, h) -> live h ptr -> wf (set_count n ptr cnt, h).
Proof.
  intros [Hc Hs Hk] Hl. simpl in *. constructor; simpl; auto.
  intros q. rewrite count_of_set_count. destruct (decide (ptr = q)) as [<- |]; auto.
Qed.

Lemma wf_add_connection n h sa ra v b :
  wf (n, h) -> usable h v = true -> live h (load h v) ->
  wf (add_connection n (mkConnection sa ra v b), h).
Proof.
  intros [Hc Hs Hk] Hu Hl. simpl in *. constructor; simpl; auto.
  apply Forall_app. split; [exact Hc |]. constructor; [| constructor]. simpl. auto.
Qed.

(** A graph without connections and counts, over a heap whose port
    variables hold nothing but allocated channels, satisfies the invariant. *)
Lemma wf_fresh n h :
  connections n = [] -> chanListenersCount n = ∅ ->
  (forall l p, slots h !! l = Some p -> p = 0%N \/ live h p) ->
  wf (n, h).
Proof.
  intros Hc Hk Hs. constructor; simpl; auto.
  - rewrite Hc. constructor.
  - intros p. unfold count_of. rewrite Hk, lookup_empty. simpl. congruence.
Qed.

(** What [findExistingChan] returns: the zero Value without a match, the
    channel of the first match otherwise. *)
Lemma find_no_match (conns : list connection) addr dir :
  has_match conns addr dir = false -> findExistingChan_loop conns addr dir = VZero.
Proof.
  induction conns as [|c rest IH]; simpl; [reflexivity |].
  intros H%orb_false_iff. destruct H as [H1 H2]. rewrite H1. auto.
Qed.

Lemma find_app (l1 l2 : list connection) addr dir :
  findExistingChan_loop (l1 ++ l2) addr dir =
  if has_match l1 addr dir then findExistingChan_loop l1 addr dir
  else findExistingChan_loop l2 addr dir.
Proof.
  induction l1 as [|c rest IH]; simpl; [reflexivity |].
  destruct (bool_decide _); simpl; [reflexivity | exact IH].
Qed.

Lemma has_match_app (l1 l2 : list connection) addr dir :
  has_match (l1 ++ l2) addr dir = has_match l1 addr dir || has_match l2 addr dir.
Proof.
  induction l1 as [|c rest IH]; simpl; [reflexivity |].
  now rewrite IH, orb_assoc.
Qed.

Lemma find_match (P : Value -> Prop) (conns : list connection) addr dir :
  Forall (fun c => P (channel c)) conns ->
  has_match conns addr dir = true -> P (findExistingChan_loop conns addr dir).
Proof.
  induction 1 as [|c rest Hc Hr IH]; simpl; [discriminate |].
  destruct (bool_decide _); simpl; auto.
Qed.

Lemma find_wf w addr dir :
  wf w ->
  if has_match (connections (fst w)) addr dir
  then usable (snd w) (findExistingChan (fst w) addr dir) = true /\
       live (snd w) (load (snd w) (findExistingChan (fst w) addr dir))
  else findExistingChan (fst w) addr dir = VZero.
Proof.
  intros [Hc _ _]. unfold findExistingChan.
  destruct (has_match _ _ _) eqn:E.
  - now apply (find_match (fun v => usable (snd w) v = true /\ live (snd w) (load (snd w) v))).
  - now apply find_no_match.
Qed.

End Invariant.

(** ** Choosing the channel *)

Section Reuse.
Context {Net : Type}.
Implicit Types (w : @World Net) (h : Heap) (ch port : Value) (sa ra : address).

Lemma reuseChan_fanout w sa ra :
  usable (snd w) (findExistingChan (fst w) sa SendDir) = true ->
  reuseChan sa ra w = (Ret (findExistingChan (fst w) sa SendDir, false), w).
Proof.
  intros Hu. unfold reuseChan, bind, lift, ret. simpl.
  now rewrite (usable_not_nil _ _ Hu).
Qed.

Lemma reuseChan_fanin w sa ra :
  invalid_or_nil (snd w) (findExistingChan (fst w) sa SendDir) = Ret true ->
  usable (snd w) (findExistingChan (fst w) ra RecvDir) = true ->
  reuseChan sa ra w =
  (Ret (findExistingChan (fst w) ra RecvDir, false),
   (counted (fst w) (load (snd w) (findExistingChan (fst w) ra RecvDir)), snd w)).
Proof.
  intros Hn Hu. unfold reuseChan, bind, lift, ret. simpl.
  rewrite Hn, (usable_found _ _ Hu).
  unfold incChanListenersCount, bind, lift. simpl.
  now rewrite (usable_pointer _ _ Hu).
Qed.

Lemma reuseChan_none w sa ra :
  invalid_or_nil (snd w) (findExistingChan (fst w) sa SendDir) = Ret true ->
  valid_and_not_nil (snd w) (findExistingChan (fst w) ra RecvDir) = Ret false ->
  reuseChan sa ra w = (Ret (findExistingChan (fst w) ra RecvDir, true), w).
Proof.
  intros Hn Hf. unfold reuseChan, bind, lift, ret. simpl. now rewrite Hn, Hf.
Qed.

(** In a graph that satisfies the invariant the choice never panics. *)
Lemma reuseChan_wf w sa ra :
  wf w ->
  reuseChan sa ra w =
  if has_match (connections (fst w)) sa SendDir
  then (Ret (findExistingChan (fst w) sa SendDir, false), w)
  else if has_match (connections (fst w)) ra RecvDir
  then (Ret (findExistingChan (fst w) ra RecvDir, false),
        (counted (fst w) (load (snd w) (findExistingChan (fst w) ra RecvDir)), snd w))
  else (Ret (VZero, true), w).
Proof.
  intros Hw.
  pose proof (find_wf w sa SendDir Hw) as Hs.
  pose proof (find_wf w ra RecvDir Hw) as Hr.
  destruct (has_match _ sa SendDir).
  - apply reuseChan_fanout. apply Hs.
  - destruct (has_match _ ra RecvDir).
    + apply reuseChan_fanin; [now rewrite Hs | apply Hr].
    + rewrite (reuseChan_none w sa ra); [now rewrite Hr | now rewrite Hs | now rewrite Hr].
Qed.

End Reuse.

(** ** What [attachPort] can do *)

Section AttachCases.
Context {Net : Type}.
Implicit Types (w : @World Net) (h : Heap) (ch port : Value).

Lemma validateChanDir_error t dir e :
  validateChanDir t dir = Some e -> attach_error dir e.
Proof.
  unfold validateChanDir, attach_error. destruct t as [d el | s].
  - destruct (Z.eqb _ _); intros [= <-]; auto.
  - intros [= <-]; auto.
Qed.

Lemma validateChanDir_chan t dir :
  validateChanDir t dir = None -> exists d e, t = ChanT d e.
Proof. destruct t as [d e | s]; simpl; [eauto | discriminate]. Qed.

Lemma usable_chan h d e p : p <> 0%N -> usable h (VChan (ChanT d e) p) = true.
Proof. intros Hp. unfold usable. simpl. now apply negb_true_iff, N.eqb_neq. Qed.

Lemma attachPort_cases port dir ch b w :
  invalid_or_nil (snd w) ch = Ret true \/ usable (snd w) ch = true ->
  attach_case port dir ch b w (attachPort port dir ch b w).
Proof.
  intros Hch.
  destruct port as [| t p | t ro l].
  - now apply attach_zero.
  - destruct (validateChanDir t dir) as [e |] eqn:Hv.
    + rewrite (attachPort_invalid_dir _ t e) by auto.
      apply attach_fail. now apply validateChanDir_error in Hv.
    + rewrite (attachPort_not_settable _ t) by auto.
      apply attach_fail. unfold attach_error; auto.
  - destruct (validateChanDir t dir) as [e |] eqn:Hv.
    { rewrite (attachPort_invalid_dir _ t e) by auto.
      apply attach_fail. now apply validateChanDir_error in Hv. }
    destruct ro.
    { rewrite (attachPort_not_settable _ t) by auto.
      apply attach_fail. unfold attach_error; auto. }
    destruct Hch as [Hn | Hu].
    + destruct (validateChanDir_chan _ _ Hv) as (d & e & ->).
      destruct (N.eq_dec (load (snd w) (VField (ChanT d e) false l)) 0%N) as [H0 | H0].
      * destruct (Z_lt_ge_dec b 0) as [Hb | Hb].
        -- rewrite attachPort_negative by auto. eapply attach_negative; eauto.
        -- destruct (Z_lt_ge_dec (makechan_limit (snd w) e) b) as [Hc | Hc].
           ++ rewrite attachPort_too_large by (auto; lia).
              eapply attach_too_large; eauto.
           ++ rewrite attachPort_make by (auto; lia). eapply attach_make; eauto. lia.
      * rewrite attachPort_keep by auto. eapply attach_keep; eauto.
    + destruct (usable_type _ _ Hu) as (d' & e' & Ht).
      destruct (assignable t (ChanT d' e')) eqn:Ha.
      * rewrite (attachPort_adopt t l dir ch (ChanT d' e')) by auto.
        eapply attach_adopt; eauto.
      * rewrite (attachPort_mismatch t l dir ch (ChanT d' e')) by auto.
        eapply attach_mismatch; eauto.
Qed.

(** The attach step changes nothing of the graph itself; an error leaves
    the heap as it was too. *)
Lemma attachPort_graph port dir ch b w :
  invalid_or_nil (snd w) ch = Ret true \/ usable (snd w) ch = true ->
  fst (snd (attachPort port dir ch b w)) = fst w.
Proof. intros H. destruct (attachPort_cases port dir ch b w H); reflexivity. Qed.

Lemma attachPort_wf port dir ch b w :
  wf w ->
  invalid_or_nil (snd w) ch = Ret true \/
    (usable (snd w) ch = true /\ live (snd w) (load (snd w) ch)) ->
  wf (snd (attachPort port dir ch b w)) /\
  forall ch', fst (attachPort port dir ch b w) = Ret (ch', None) ->
    usable (snd (snd (attachPort port dir ch b w))) ch' = true /\
    live (snd (snd (attachPort port dir ch b w)))
         (load (snd (snd (attachPort port dir ch b w))) ch').
Proof.
  intros Hw Hch.
  assert (Hch' : invalid_or_nil (snd w) ch = Ret true \/ usable (snd w) ch = true)
    by (destruct Hch as [? | [? _]]; auto).
  destruct w as [n h].
  destruct (attachPort_cases port dir ch b (n, h) Hch')
    as [msg Hp | e He | T l Hp Hu | T l V msg Hp Hu Ht Ha | d e l Hp Hn Hl
        | d e l Hp Hn Hl Hb | d e l msg Hp Hn Hl Hb | d e l msg Hp Hn Hl Hb];
    simpl in *.
  - split; [exact Hw | discriminate].
  - split; [exact Hw | discriminate].
  - destruct Hch as [Hn | [_ Hlive]].
    { rewrite (usable_not_nil _ _ Hu) in Hn. discriminate. }
    pose proof (usable_load _ _ Hu) as Hnz.
    split; [now apply wf_store |].
    intros ch' [= <-]. split.
    + now apply usable_store.
    + rewrite load_store. destruct ch as [| t q | t ro l']; auto.
      destruct (decide (l = l')); auto.
  - split; [exact Hw | discriminate].
  - assert (Hlive : live h (load h port)).
    { subst port. simpl in *. destruct (slots h !! l) as [q |] eqn:E; simpl in *.
      - destruct (wf_slots _ Hw l q E); [contradiction | assumption].
      - contradiction. }
    split; [now apply wf_store |].
    intros ch' [= <-]. subst port. split.
    + simpl. rewrite lookup_insert, decide_True by reflexivity. simpl.
      now apply negb_true_iff, N.eqb_neq.
    + rewrite load_store, decide_True by reflexivity. exact Hlive.
  - assert (Hnz : next_ptr h <> 0%N) by (unfold next_ptr; lia).
    split.
    + apply wf_store; [now apply wf_alloc | exact Hnz | apply live_next].
    + intros ch' [= <-]. split.
      * now apply usable_chan.
      * apply live_next.
  - split; [exact Hw | discriminate].
  - split; [exact Hw | discriminate].
Qed.

End AttachCases.

(** ** Wiring the two ends *)

Section Wire.
Context {Net : Type}.
Implicit Types (w : @World Net) (h : Heap) (ch port : Value).

(** [wire], one step at a time. *)
Lemma wire_eq sN sP rN rP b sendPort recvPort ch (isNew : bool) w :
  wire sN sP rN rP b sendPort recvPort ch isNew w =
  match attachPort sendPort SendDir ch b w with
  | (Panic msg, w1) => (Panic msg, w1)
  | (Ret (_, Some e), w1) =>
      (Ret (Some ("connect '" +:+ sN +:+ "." +:+ sP +:+ "': " +:+ e)), w1)
  | (Ret (ch1, None), w1) =>
      match attachPort recvPort RecvDir ch1 b w1 with
      | (Panic msg, w2) => (Panic msg, w2)
      | (Ret (_, Some e), w2) =>
          (Ret (Some ("connect '" +:+ rN +:+ "." +:+ rP +:+ "': " +:+ e)), w2)
      | (Ret (_, None), w2) =>
          match (if isNew then incChanListenersCount ch1 else ret tt) w2 with
          | (Panic msg, w3) => (Panic msg, w3)
          | (Ret _, w3) =>
              (Ret None,
               (add_connection (fst w3)
                  (mkConnection (parseAddress sN sP) (parseAddress rN rP) ch1 b),
                snd w3))
          end
      end
  end.
Proof.
  unfold wire, bind.
  destruct (attachPort sendPort SendDir ch b w) as [[[ch1 [e |]] | msg] w1]; try reflexivity.
  all: destruct (attachPort recvPort RecvDir ch1 b w1) as [[[ch2 [e |]] | msg] w2];
    try reflexivity.
  all: destruct ((if isNew then incChanListenersCount ch1 else ret tt) w2)
    as [[[] | msg] w3]; reflexivity.
Qed.

Lemma load_store_self h l v : load (store h l (load h v)) v = load h v.
Proof.
  rewrite load_store. destruct v as [| t q | t ro l']; auto.
  now destruct (decide (l = l')).
Qed.

Lemma connections_counted (n : @Graph Net) ptr : connections (counted n ptr) = connections n.
Proof. reflexivity. Qed.

(** A successful [wire]: the channel it recorded, and what it changed. *)
Lemma wire_success sN sP rN rP b sendPort recvPort ch (isNew : bool) w w' :
  wf w ->
  ch = VZero \/ (usable (snd w) ch = true /\ live (snd w) (load (snd w) ch)) ->
  wire sN sP rN rP b sendPort recvPort ch isNew w = (Ret None, w') ->
  exists ch',
    fst w' = add_connection
               (if isNew then counted (fst w) (load (snd w') ch') else fst w)
               (mkConnection (parseAddress sN sP) (parseAddress rN rP) ch' b) /\
    usable (snd w') ch' = true /\
    wf w' /\
    (usable (snd w) ch = true ->
       ch' = ch /\ chans (snd w') = chans (snd w) /\
       load (snd w') ch' = load (snd w) ch) /\
    (chans (snd w') <> chans (snd w) ->
       exists e, ch' = VChan (ChanT BothDir e) (next_ptr (snd w)) /\
                 chans (snd w') = (chans (snd w) ++ [mkChan e b])%list).
Proof.
  intros Hw Hch. rewrite wire_eq.
  assert (Hch1 : invalid_or_nil (snd w) ch = Ret true \/
                 (usable (snd w) ch = true /\ live (snd w) (load (snd w) ch))).
  { destruct Hch as [-> | H]; [left; reflexivity | now right]. }
  assert (Hch1' : invalid_or_nil (snd w) ch = Ret true \/ usable (snd w) ch = true).
  { destruct Hch1 as [? | [? _]]; auto. }
  destruct (attachPort_wf sendPort SendDir ch b w Hw Hch1) as [Hw1 Hu1].
  pose proof (attachPort_cases sendPort SendDir ch b w Hch1') as Hc1.
  destruct (attachPort sendPort SendDir ch b w) as [[[ch1 [e |]] | msg] w1];
    try discriminate.
  simpl in Hw1, Hu1. destruct (Hu1 ch1 eq_refl) as [Huse1 Hlive1].
  destruct (attachPort_wf recvPort RecvDir ch1 b w1 Hw1 (or_intror (conj Huse1 Hlive1)))
    as [Hw2 Hu2].
  pose proof (attachPort_cases recvPort RecvDir ch1 b w1 (or_intror Huse1)) as Hc2.
  destruct (attachPort recvPort RecvDir ch1 b w1) as [[[ch2 [e |]] | msg] w2];
    try discriminate.
  simpl in Hw2, Hu2. destruct (Hu2 ch2 eq_refl) as [Huse2 Hlive2].
  (* the receiver step adopts [ch1] *)
  assert (E2 : ch2 = ch1 /\ w2 = (fst w1, store (snd w1) (match recvPort with
                 VField _ _ l => l | _ => 0%N end) (load (snd w1) ch1))).
  { inversion Hc2; subst; simpl; auto;
      match goal with
      | H : invalid_or_nil _ _ = Ret true |- _ =>
          rewrite (usable_not_nil _ _ Huse1) in H; discriminate
      end. }
  destruct E2 as [-> E2].
  assert (Hl2 : load (snd w2) ch1 = load (snd w1) ch1).
  { rewrite E2. simpl. apply load_store_self. }
  assert (Hc2' : chans (snd w2) = chans (snd w1)) by (rewrite E2; reflexivity).
  assert (Hg2 : fst w2 = fst w1) by (rewrite E2; reflexivity).
  (* the count *)
  assert (E3 : (if isNew then incChanListenersCount ch1 else ret tt) w2 =
               (Ret tt, ((if isNew then counted (fst w2) (load (snd w2) ch1) else fst w2),
                         snd w2))).
  { destruct isNew.
    - rewrite (incChanListenersCount_eq w2 ch1 (load (snd w2) ch1)); [reflexivity |].
      now apply usable_pointer.
    - unfold ret. now destruct w2. }
  rewrite E3. intros [= <-]. simpl.
  exists ch1.
  assert (Hg1 : fst w1 = fst w).
  { inversion Hc1; subst; reflexivity. }
  split; [now rewrite Hg2, Hg1 |].
  split; [exact Huse2 |].
  split.
  { destruct w2 as [n2 h2]. simpl in *.
    apply wf_add_connection; auto.
    destruct isNew; [apply wf_set_count |]; auto. }
  split.
  - intros Hu. rewrite Hl2, Hc2'.
    inversion Hc1; subst; simpl;
      try match goal with
          | H : invalid_or_nil _ _ = Ret true |- _ =>
              rewrite (usable_not_nil _ _ Hu) in H; discriminate
          end.
    repeat split; auto. apply load_store_self.
  - rewrite Hc2'. intros Hne.
    inversion Hc1; subst; simpl in *; try contradiction.
    eexists; split; reflexivity.
Qed.

End Wire.

(** ** [ConnectBuf] *)

Section Connector.
Context {Net : Type}.
Variable getOutPort : Net -> string -> Value * error.
Variable getInPort : Net -> string -> Value * error.
Implicit Types (w : @World Net) (h : Heap) (ch port : Value).

Local Abbreviation resolve := (getProcPort getOutPort getInPort).
Local Abbreviation connect := (ConnectBuf getOutPort getInPort).

(** [ConnectBuf], one step at a time. *)
Lemma ConnectBuf_eq sN sP rN rP b w :
  connect sN sP rN rP b w =
  match resolve (fst w) sN sP SendDir with
  | Panic msg => (Panic msg, w)
  | Ret (_, Some e) => (Ret (Some ("connect: " +:+ e)), w)
  | Ret (sendPort, None) =>
      match resolve (fst w) rN rP RecvDir with
      | Panic msg => (Panic msg, w)
      | Ret (_, Some e) => (Ret (Some ("connect: " +:+ e)), w)
      | Ret (recvPort, None) =>
          match reuseChan (parseAddress sN sP) (parseAddress rN rP) w with
          | (Panic msg, w1) => (Panic msg, w1)
          | (Ret (ch, isNew), w1) =>
              wire sN sP rN rP b sendPort recvPort ch isNew w1
          end
      end
  end.
Proof.
  unfold ConnectBuf, bind, lift.
  destruct (resolve (fst w) sN sP SendDir) as [[sendPort [e |]] | msg]; try reflexivity.
  all: destruct (resolve (fst w) rN rP RecvDir) as [[recvPort [e |]] | msg]; try reflexivity.
  all: destruct (reuseChan (parseAddress sN sP) (parseAddress rN rP) w)
    as [[[ch isNew] | msg] w1]; reflexivity.
Qed.

Lemma ConnectBuf_resolved sN sP rN rP b w sendPort recvPort :
  resolve (fst w) sN sP SendDir = Ret (sendPort, None) ->
  resolve (fst w) rN rP RecvDir = Ret (recvPort, None) ->
  connect sN sP rN rP b w =
  match reuseChan (parseAddress sN sP) (parseAddress rN rP) w with
  | (Panic msg, w1) => (Panic msg, w1)
  | (Ret (ch, isNew), w1) => wire sN sP rN rP b sendPort recvPort ch isNew w1
  end.
Proof. intros Hs Hr. now rewrite ConnectBuf_eq, Hs, Hr. Qed.

(** What a successful [ConnectBuf] did to a graph that satisfies the
    invariant. *)
Lemma ConnectBuf_success sN sP rN rP b w w' :
  wf w ->
  connect sN sP rN rP b w = (Ret None, w') ->
  let sa := parseAddress sN sP in
  let ra := parseAddress rN rP in
  exists ch',
    connections (fst w') = (connections (fst w) ++ [mkConnection sa ra ch' b])%list /\
    usable (snd w') ch' = true /\
    wf w' /\
    (has_match (connections (fst w)) sa SendDir = true ->
       ch' = findExistingChan (fst w) sa SendDir /\
       chans (snd w') = chans (snd w) /\
       load (snd w') ch' = load (snd w) ch' /\
       chanListenersCount (fst w') = chanListenersCount (fst w)) /\
    (has_match (connections (fst w)) sa SendDir = false ->
     has_match (connections (fst w)) ra RecvDir = true ->
       ch' = findExistingChan (fst w) ra RecvDir /\
       chans (snd w') = chans (snd w) /\
       load (snd w') ch' = load (snd w) ch' /\
       chanListenersCount (fst w') =
         chanListenersCount (counted (fst w) (load (snd w) ch'))) /\
    (has_match (connections (fst w)) sa SendDir = false ->
     has_match (connections (fst w)) ra RecvDir = false ->
       chanListenersCount (fst w') =
         chanListenersCount (counted (fst w) (load (snd w') ch')) /\
       (chans (snd w') <> chans (snd w) ->
          exists e, ch' = VChan (ChanT BothDir e) (next_ptr (snd w)) /\
                    chans (snd w') = (chans (snd w) ++ [mkChan e b])%list)).
Proof.
  intros Hw H sa ra. rewrite ConnectBuf_eq in H.
  destruct (resolve (fst w) sN sP SendDir) as [[sendPort [e |]] | msg]; try discriminate.
  destruct (resolve (fst w) rN rP RecvDir) as [[recvPort [e |]] | msg]; try discriminate.
  rewrite (reuseChan_wf w _ _ Hw) in H. fold sa ra in H.
  pose proof (find_wf w sa SendDir Hw) as Hfs.
  pose proof (find_wf w ra RecvDir Hw) as Hfr.
  destruct (has_match (connections (fst w)) sa SendDir) eqn:Ms.
  - (* fan-out *)
    destruct (wire_success _ _ _ _ _ _ _ _ _ _ _ Hw (or_intror Hfs) H)
      as (ch' & Hg & Hu & Hw' & Hreuse & _).
    destruct (Hreuse (proj1 Hfs)) as (-> & Hc & Hl).
    exists (findExistingChan (fst w) sa SendDir).
    rewrite Hg. simpl.
    split; [reflexivity |]. split; [exact Hu |]. split; [exact Hw' |].
    split; [intros _; auto |]. split; discriminate.
  - destruct (has_match (connections (fst w)) ra RecvDir) eqn:Mr.
    + (* fan-in *)
      set (ch := findExistingChan (fst w) ra RecvDir) in *.
      assert (Hw1 : wf (counted (fst w) (load (snd w) ch), snd w)).
      { destruct w as [n h]. simpl in *. apply wf_set_count; [exact Hw | apply Hfr]. }
      destruct (wire_success _ _ _ _ _ _ _ _ _ _ _ Hw1 (or_intror Hfr) H)
        as (ch' & Hg & Hu & Hw' & Hreuse & _).
      destruct (Hreuse (proj1 Hfr)) as (-> & Hc & Hl).
      exists ch. rewrite Hg. simpl.
      split; [reflexivity |]. split; [exact Hu |]. split; [exact Hw' |].
      split; [discriminate |]. split; [intros _ _; auto | discriminate].
    + (* a channel of its own *)
      destruct (wire_success _ _ _ _ _ _ _ _ _ _ _ Hw (or_introl eq_refl) H)
        as (ch' & Hg & Hu & Hw' & _ & Hnew).
      exists ch'. rewrite Hg. simpl.
      split; [reflexivity |]. split; [exact Hu |]. split; [exact Hw' |].
      split; [discriminate |]. split; [discriminate |]. intros _ _. auto.
Qed.

End Connector.

(** ** Fan-out and fan-in *)

Section Sharing.
Context {Net : Type}.
Variable getOutPort : Net -> string -> Value * error.
Variable getInPort : Net -> string -> Value * error.
Implicit Types (w : @World Net) (h : Heap) (ch port : Value).

Local Abbreviation resolve := (getProcPort getOutPort getInPort).
Local Abbreviation connect := (ConnectBuf getOutPort getInPort).

Lemma count_of_ext (n n' : @Graph Net) p :
  chanListenersCount n = chanListenersCount n' -> count_of n p = count_of n' p.
Proof. unfold count_of. now intros ->. Qed.

Lemma count_of_counted (n : @Graph Net) p :
  count_of (counted n p) p = ((count_of n p + 1) mod uint_modulus)%N.
Proof. unfold counted. rewrite count_of_set_count. now rewrite decide_True. Qed.

Lemma count_not_live w p : wf w -> ~ live (snd w) p -> count_of (fst w) p = 0%N.
Proof.
  intros Hw Hn. destruct (N.eq_dec (count_of (fst w) p) 0%N) as [E | E]; [exact E |].
  exfalso. apply Hn. now apply (wf_count _ Hw).
Qed.

Lemma find_last (conns : list connection) (c : connection) addr dir :
  has_match conns addr dir = false ->
  match dir with SendDir => src c | _ => tgt c end = addr ->
  findExistingChan_loop (conns ++ [c]) addr dir = channel c.
Proof.
  intros Hm Ha. rewrite find_app, Hm. simpl.
  now rewrite bool_decide_eq_true_2.
Qed.

Lemma has_match_last (conns : list connection) (c : connection) addr dir :
  match dir with SendDir => src c | _ => tgt c end = addr ->
  has_match (conns ++ [c]) addr dir = true.
Proof.
  intros Ha. rewrite has_match_app. simpl.
  rewrite bool_decide_eq_true_2 by exact Ha. simpl. apply orb_true_r.
Qed.

(** A call that made a channel found nothing to reuse; the new channel
    is counted once. *)
Lemma ConnectBuf_new_channel sN sP rN rP b w w' :
  wf w ->
  connect sN sP rN rP b w = (Ret None, w') ->
  chans (snd w') <> chans (snd w) ->
  exists e,
    let ch := VChan (ChanT BothDir e) (next_ptr (snd w)) in
    connections (fst w') =
      (connections (fst w) ++
       [mkConnection (parseAddress sN sP) (parseAddress rN rP) ch b])%list /\
    chans (snd w') = (chans (snd w) ++ [mkChan e b])%list /\
    has_match (connections (fst w)) (parseAddress sN sP) SendDir = false /\
    has_match (connections (fst w)) (parseAddress rN rP) RecvDir = false /\
    count_of (fst w') (next_ptr (snd w)) = 1%N /\
    wf w'.
Proof.
  intros Hw H Hne.
  destruct (ConnectBuf_success _ _ _ _ _ _ _ _ _ Hw H)
    as (ch' & Hc & Hu & Hw' & Hout & Hin & Hnew).
  destruct (has_match (connections (fst w)) (parseAddress sN sP) SendDir) eqn:Ms.
  { destruct (Hout eq_refl) as (_ & E & _). contradiction. }
  destruct (has_match (connections (fst w)) (parseAddress rN rP) RecvDir) eqn:Mr.
  { destruct (Hin eq_refl eq_refl) as (_ & E & _). contradiction. }
  destruct (Hnew eq_refl eq_refl) as (Hk & Hmk).
  destruct (Hmk Hne) as (e & -> & Hch).
  exists e. simpl. repeat (split; [assumption || reflexivity |]).
  split; [| exact Hw'].
  rewrite (count_of_ext _ _ _ Hk). simpl. rewrite count_of_counted.
  rewrite (count_not_live w _ Hw (next_not_live _)). reflexivity.
Qed.

(** C1 (amended): in every graph built by the wiring calls, when two
    [ConnectBuf] calls succeed with the same parsed sender address, both
    recorded Connections hold the identical channel, the second call
    leaves the count table as the first one left it, and the count of the
    channel is exactly 1 after both calls when the first call created the
    channel. *)
Theorem fan_out_shares_channel s1 p1 r1 q1 b1 s2 p2 r2 q2 b2 w0 w1 w2 :
  wf w0 ->
  connect s1 p1 r1 q1 b1 w0 = (Ret None, w1) ->
  connect s2 p2 r2 q2 b2 w1 = (Ret None, w2) ->
  parseAddress s2 p2 = parseAddress s1 p1 ->
  exists ch ptr,
    connections (fst w2) =
      (connections (fst w0) ++
       [mkConnection (parseAddress s1 p1) (parseAddress r1 q1) ch b1;
        mkConnection (parseAddress s1 p1) (parseAddress r2 q2) ch b2])%list /\
    Pointer (snd w1) ch = Ret ptr /\
    Pointer (snd w2) ch = Ret ptr /\
    chanListenersCount (fst w2) = chanListenersCount (fst w1) /\
    (chans (snd w1) <> chans (snd w0) -> count_of (fst w2) ptr = 1%N).
Proof.
  intros Hw H1 H2 Ea.
  destruct (ConnectBuf_success _ _ _ _ _ _ _ _ _ Hw H1)
    as (c1 & Hc1 & Hu1 & Hw1 & Hout1 & _).
  destruct (ConnectBuf_success _ _ _ _ _ _ _ _ _ Hw1 H2)
    as (c2 & Hc2 & Hu2 & Hw2 & Hout2 & _).
  rewrite Ea in Hc2, Hout2.
  assert (Hm : has_match (connections (fst w1)) (parseAddress s1 p1) SendDir = true).
  { rewrite Hc1. now apply has_match_last. }
  destruct (Hout2 Hm) as (-> & _ & Hl2 & Hk2).
  assert (E : findExistingChan (fst w1) (parseAddress s1 p1) SendDir = c1).
  { unfold findExistingChan. rewrite Hc1.
    destruct (has_match (connections (fst w0)) (parseAddress s1 p1) SendDir) eqn:M0.
    - rewrite find_app, M0. symmetry. apply (Hout1 eq_refl).
    - now rewrite find_last. }
  rewrite E in Hc2, Hu2, Hl2.
  exists c1, (load (snd w1) c1).
  split; [rewrite Hc2, Hc1, <- app_assoc; reflexivity |].
  split; [now apply usable_pointer |].
  split; [rewrite <- Hl2; now apply usable_pointer |].
  split; [exact Hk2 |].
  intros Hne.
  destruct (ConnectBuf_new_channel _ _ _ _ _ _ _ Hw H1 Hne)
    as (e & Hc1' & _ & _ & _ & Hcount & _).
  simpl in Hc1'. rewrite Hc1 in Hc1'. apply app_inv_head in Hc1'.
  injection Hc1' as ->. simpl.
  rewrite (count_of_ext _ _ _ Hk2). exact Hcount.
Qed.

(** C2 (amended): in every graph built by the wiring calls, when
    [ConnectBuf] succeeds for A.Out -> B.In creating a new channel and a
    second [ConnectBuf] succeeds for C.Out -> B.In, with an equal parsed
    receiver address and a sender address that is not yet the source of a
    recorded connection, the second call adopts the channel of the first,
    raises its count to 2 on finding it, before either end is attached,
    and the count is 2 after the second call. *)
Theorem fan_in_counts_senders s1 p1 r1 q1 b1 s2 p2 r2 q2 b2 w0 w1 w2 :
  wf w0 ->
  connect s1 p1 r1 q1 b1 w0 = (Ret None, w1) ->
  chans (snd w1) <> chans (snd w0) ->
  connect s2 p2 r2 q2 b2 w1 = (Ret None, w2) ->
  parseAddress r2 q2 = parseAddress r1 q1 ->
  has_match (connections (fst w1)) (parseAddress s2 p2) SendDir = false ->
  exists ch ptr sendPort recvPort wm,
    connections (fst w2) =
      (connections (fst w0) ++
       [mkConnection (parseAddress s1 p1) (parseAddress r1 q1) ch b1;
        mkConnection (parseAddress s2 p2) (parseAddress r1 q1) ch b2])%list /\
    parseAddress s2 p2 <> parseAddress s1 p1 /\
    Pointer (snd w1) ch = Ret ptr /\
    Pointer (snd w2) ch = Ret ptr /\
    count_of (fst w1) ptr = 1%N /\
    reuseChan (parseAddress s2 p2) (parseAddress r2 q2) w1 = (Ret (ch, false), wm) /\
    snd wm = snd w1 /\
    connections (fst wm) = connections (fst w1) /\
    count_of (fst wm) ptr = 2%N /\
    wire s2 p2 r2 q2 b2 sendPort recvPort ch false wm = (Ret None, w2) /\
    count_of (fst w2) ptr = 2%N.
Proof.
  intros Hw H1 Hne H2 Ea Hfresh.
  destruct (ConnectBuf_new_channel _ _ _ _ _ _ _ Hw H1 Hne)
    as (e & Hc1 & _ & _ & Mr0 & Hcount & Hw1).
  simpl in Hc1.
  set (ptr := next_ptr (snd w0)) in *.
  set (ch := VChan (ChanT BothDir e) ptr) in *.
  destruct (ConnectBuf_success _ _ _ _ _ _ _ _ _ Hw1 H2)
    as (c2 & Hc2 & Hu2 & Hw2 & _ & Hin2 & _).
  rewrite Ea in Hc2, Hin2.
  assert (Hm : has_match (connections (fst w1)) (parseAddress r1 q1) RecvDir = true).
  { rewrite Hc1. now apply has_match_last. }
  assert (Hf : findExistingChan (fst w1) (parseAddress r1 q1) RecvDir = ch).
  { unfold findExistingChan. rewrite Hc1. now rewrite find_last. }
  destruct (Hin2 Hfresh Hm) as (-> & _ & _ & Hk2).
  rewrite Hf in Hc2, Hu2, Hk2.
  (* the second call, step by step *)
  pose proof H2 as H2'. rewrite ConnectBuf_eq in H2'.
  destruct (resolve (fst w1) s2 p2 SendDir) as [[sendPort [err |]] | msg];
    try discriminate.
  destruct (resolve (fst w1) r2 q2 RecvDir) as [[recvPort [err |]] | msg];
    try discriminate.
  rewrite (reuseChan_wf w1 _ _ Hw1), Hfresh, Ea, Hm, Hf in H2'.
  exists ch, ptr, sendPort, recvPort, (counted (fst w1) ptr, snd w1).
  split; [rewrite Hc2, Hc1, <- app_assoc; reflexivity |].
  split.
  { intros E. rewrite Hc1, E in Hfresh.
    rewrite has_match_last in Hfresh by reflexivity. discriminate. }
  split; [reflexivity |]. split; [reflexivity |].
  split; [exact Hcount |].
  split; [rewrite (reuseChan_wf w1 _ _ Hw1), Hfresh, Ea, Hm, Hf; reflexivity |].
  split; [reflexivity |]. split; [reflexivity |].
  assert (Hk : count_of (counted (fst w1) ptr) ptr = 2%N).
  { rewrite count_of_counted, Hcount. reflexivity. }
  split; [exact Hk |].
  split; [exact H2' |].
  rewrite (count_of_ext _ _ _ Hk2). exact Hk.
Qed.

End Sharing.

(** ** Failures *)

Section Failures.
Context {Net : Type}.
Variable getOutPort : Net -> string -> Value * error.
Variable getInPort : Net -> string -> Value * error.
Implicit Types (w : @World Net) (h : Heap) (ch port : Value).

Local Abbreviation resolve := (getProcPort getOutPort getInPort).
Local Abbreviation connect := (ConnectBuf getOutPort getInPort).

(** Whatever the channel, [attachPort] leaves the graph itself alone, and
    the only errors it returns are those of its two validations, which
    leave the heap alone too. *)
Lemma attachPort_frame port dir ch b w :
  fst (snd (attachPort port dir ch b w)) = fst w /\
  forall ch' e, fst (attachPort port dir ch b w) = Ret (ch', Some e) ->
    attach_error dir e /\ ch' = ch /\ snd (attachPort port dir ch b w) = w.
Proof.
  unfold attachPort, bind, lift, ret.
  destruct (TypeOf port) as [t | msg]; simpl; [| split; [reflexivity | discriminate]].
  destruct (validateChanDir t dir) as [e |] eqn:Hv; simpl.
  { split; [reflexivity |]. intros ch' e' [= <- <-].
    split; [now apply validateChanDir_error in Hv | auto]. }
  unfold validateCanSet. destruct (CanSet port); simpl.
  2:{ split; [reflexivity |]. intros ch' e' [= <- <-].
      unfold attach_error. auto. }
  assert (Hsel : fst (snd (selectOrMakeChan ch port b w)) = fst w).
  { unfold selectOrMakeChan, bind, lift, ret.
    destruct (invalid_or_nil (snd w) ch) as [[|] | msg]; simpl; try reflexivity.
    destruct (valid_and_not_nil (snd w) port) as [[|] | msg]; simpl; try reflexivity.
    destruct (TypeOf port) as [[d e | s] | msg]; simpl; try reflexivity.
    destruct (MakeChan (snd w) e b) as [[c h'] | msg]; reflexivity. }
  destruct (selectOrMakeChan ch port b w) as [[c | msg] w1]; simpl in *;
    [| split; [exact Hsel | discriminate]].
  destruct (SetValue (snd w1) port c) as [h' | msg]; simpl;
    (split; [exact Hsel | discriminate]).
Qed.

Lemma reuseChan_connections sa ra w :
  connections (fst (snd (reuseChan sa ra w))) = connections (fst w) /\
  snd (snd (reuseChan sa ra w)) = snd w.
Proof.
  unfold reuseChan, bind, lift, ret. simpl.
  destruct (invalid_or_nil _ _) as [[|] | msg]; simpl; auto.
  destruct (valid_and_not_nil _ _) as [[|] | msg]; simpl; auto.
  unfold incChanListenersCount, bind, lift. simpl.
  destruct (Pointer _ _) as [ptr | msg]; simpl; auto.
Qed.

Lemma incChanListenersCount_connections ch w :
  connections (fst (snd (incChanListenersCount ch w))) = connections (fst w) /\
  snd (snd (incChanListenersCount ch w)) = snd w.
Proof.
  unfold incChanListenersCount, bind, lift. simpl.
  destruct (Pointer _ _) as [ptr | msg]; simpl; auto.
Qed.

(** A call of [wire] that does not succeed appends no Connection, and
    the errors it returns are those of the two attach steps. *)
Lemma wire_failure sN sP rN rP b sendPort recvPort ch isNew w r w' :
  wire sN sP rN rP b sendPort recvPort ch isNew w = (r, w') ->
  r <> Ret None ->
  connections (fst w') = connections (fst w) /\
  forall e, r = Ret (Some e) ->
    (exists e', attach_error SendDir e' /\
                e = "connect '" +:+ sN +:+ "." +:+ sP +:+ "': " +:+ e') \/
    (exists e', attach_error RecvDir e' /\
                e = "connect '" +:+ rN +:+ "." +:+ rP +:+ "': " +:+ e').
Proof.
  rewrite wire_eq.
  destruct (attachPort_frame sendPort SendDir ch b w) as [Hg1 He1].
  destruct (attachPort sendPort SendDir ch b w) as [[[ch1 [e |]] | msg] w1]; simpl in *.
  - intros [= <- <-] _. rewrite Hg1. split; [reflexivity |].
    intros e0 [= <-]. left. exists e. split; [apply (He1 ch1 e eq_refl) | reflexivity].
  - destruct (attachPort_frame recvPort RecvDir ch1 b w1) as [Hg2 He2].
    destruct (attachPort recvPort RecvDir ch1 b w1) as [[[ch2 [e |]] | msg] w2];
      simpl in *.
    + intros [= <- <-] _. rewrite Hg2, Hg1. split; [reflexivity |].
      intros e0 [= <-]. right. exists e. split; [apply (He2 ch2 e eq_refl) | reflexivity].
    + pose proof (incChanListenersCount_connections ch1 w2) as [Hc3 _].
      destruct isNew.
      * destruct (incChanListenersCount ch1 w2) as [[[] | msg] w3]; simpl in *.
        -- intros [= <- <-] Hr. contradiction.
        -- intros [= <- <-] _. rewrite Hc3, Hg2, Hg1. split; [reflexivity | discriminate].
      * unfold ret. intros [= <- <-] Hr. contradiction.
    + intros [= <- <-] _. rewrite Hg2, Hg1. split; [reflexivity | discriminate].
  - intros [= <- <-] _. rewrite Hg1. split; [reflexivity | discriminate].
Qed.


(** A call of [ConnectBuf] that does not succeed appends no Connection. *)
Lemma ConnectBuf_failure sN sP rN rP b w r w' :
  connect sN sP rN rP b w = (r, w') ->
  r <> Ret None ->
  connections (fst w') = connections (fst w).
Proof.
  rewrite ConnectBuf_eq.
  destruct (resolve (fst w) sN sP SendDir) as [[sendPort [e |]] | msg];
    try (intros [= <- <-] _; reflexivity).
  destruct (resolve (fst w) rN rP RecvDir) as [[recvPort [e |]] | msg];
    try (intros [= <- <-] _; reflexivity).
  destruct (reuseChan_connections (parseAddress sN sP) (parseAddress rN rP) w) as [Hc _].
  destruct (reuseChan _ _ w) as [[[ch isNew] | msg] w1]; simpl in *.
  - intros H Hr. rewrite <- Hc. now apply (wire_failure _ _ _ _ _ _ _ _ _ _ _ _ H).
  - intros [= <- <-] _. exact Hc.
Qed.

End Failures.

(** ** Direction enforcement and what a failed call leaves behind *)

Section Rejection.
Context {Net : Type}.
Variable getOutPort : Net -> string -> Value * error.
Variable getInPort : Net -> string -> Value * error.
Implicit Types (w : @World Net) (h : Heap) (ch port : Value).

Local Abbreviation resolve := (getProcPort getOutPort getInPort).
Local Abbreviation connect := (ConnectBuf getOutPort getInPort).

Lemma wire_sender_fails sN sP rN rP b sendPort recvPort ch isNew w t e :
  TypeOf sendPort = Ret t ->
  validateChanDir t SendDir = Some e \/
    (validateChanDir t SendDir = None /\ CanSet sendPort = false /\
     e = "port is not assignable") ->
  wire sN sP rN rP b sendPort recvPort ch isNew w =
  (Ret (Some ("connect '" +:+ sN +:+ "." +:+ sP +:+ "': " +:+ e)), w).
Proof.
  intros Ht [Hv | (Hv & Hs & ->)]; rewrite wire_eq.
  - now rewrite (attachPort_invalid_dir sendPort t e).
  - now rewrite (attachPort_not_settable sendPort t).
Qed.

(** C3 (amended): in a graph built by the wiring calls, when both ends
    resolve and the sender port is a receive-only channel, [ConnectBuf]
    returns the wrong-direction error wrapped with the sender's process
    and port, and the Connection list and the port variables are
    unchanged; when the sender attach step fails, whatever the ports,
    [ConnectBuf] returns its error wrapped the same way and appends
    nothing; and no call that does not succeed appends a Connection. *)
Theorem receive_only_sender_rejected sN sP rN rP b w sendPort recvPort elem :
  wf w ->
  resolve (fst w) sN sP SendDir = Ret (sendPort, None) ->
  TypeOf sendPort = Ret (ChanT RecvDir elem) ->
  resolve (fst w) rN rP RecvDir = Ret (recvPort, None) ->
  (exists w',
      connect sN sP rN rP b w =
        (Ret (Some ("connect '" +:+ sN +:+ "." +:+ sP +:+
                    "': channel does not support direction chan<-")), w') /\
      connections (fst w') = connections (fst w) /\
      snd w' = snd w) /\
  (forall port ch isNew w0 ch' err w1,
      attachPort port SendDir ch b w0 = (Ret (ch', Some err), w1) ->
      wire sN sP rN rP b port recvPort ch isNew w0 =
        (Ret (Some ("connect '" +:+ sN +:+ "." +:+ sP +:+ "': " +:+ err)), w1) /\
      connections (fst w1) = connections (fst w0) /\
      snd w1 = snd w0) /\
  (forall s p r q b' w0 res w1,
      connect s p r q b' w0 = (res, w1) -> res <> Ret None ->
      connections (fst w1) = connections (fst w0)).
Proof.
  intros Hw Hs Ht Hr. split; [| split].
  - rewrite (ConnectBuf_resolved _ _ _ _ _ _ _ _ _ _ Hs Hr).
    destruct (reuseChan_connections (parseAddress sN sP) (parseAddress rN rP) w)
      as [Hc Hh].
    rewrite (reuseChan_wf w _ _ Hw) in *.
    destruct (has_match _ _ SendDir); [| destruct (has_match _ _ RecvDir)];
      simpl in Hc, Hh;
      erewrite wire_sender_fails by (eauto; left; reflexivity);
      eexists; split; try reflexivity; simpl; auto.
  - intros port ch isNew w0 ch' err w1 H.
    destruct (attachPort_frame port SendDir ch b w0) as [Hg He].
    rewrite wire_eq, H. rewrite H in Hg, He. simpl in *.
    destruct (He ch' err eq_refl) as (_ & _ & ->).
    repeat split; reflexivity.
  - intros s p r q b' w0 res w1. apply ConnectBuf_failure.
Qed.

(** C10: when both ends resolve, no channel is found for the sender
    address, one is found for the receiver address, and the sender attach
    step fails, [ConnectBuf] returns the error, appends no Connection and
    assigns no port variable, and the count of the found channel stays
    incremented: the graph differs from the one before the call by that
    count alone. *)
Theorem fan_in_count_survives_failure sN sP rN rP b w sendPort recvPort t e :
  resolve (fst w) sN sP SendDir = Ret (sendPort, None) ->
  resolve (fst w) rN rP RecvDir = Ret (recvPort, None) ->
  invalid_or_nil (snd w) (findExistingChan (fst w) (parseAddress sN sP) SendDir)
    = Ret true ->
  usable (snd w) (findExistingChan (fst w) (parseAddress rN rP) RecvDir) = true ->
  TypeOf sendPort = Ret t ->
  validateChanDir t SendDir = Some e \/
    (validateChanDir t SendDir = None /\ CanSet sendPort = false /\
     e = "port is not assignable") ->
  let ch := findExistingChan (fst w) (parseAddress rN rP) RecvDir in
  let ptr := load (snd w) ch in
  Pointer (snd w) ch = Ret ptr /\
  connect sN sP rN rP b w =
    (Ret (Some ("connect '" +:+ sN +:+ "." +:+ sP +:+ "': " +:+ e)),
     (counted (fst w) ptr, snd w)) /\
  connections (counted (fst w) ptr) = connections (fst w) /\
  procs (counted (fst w) ptr) = procs (fst w) /\
  count_of (counted (fst w) ptr) ptr = ((count_of (fst w) ptr + 1) mod uint_modulus)%N /\
  (forall q, q <> ptr -> count_of (counted (fst w) ptr) q = count_of (fst w) q).
Proof.
  intros Hs Hr Hn Hu Ht He ch ptr.
  split; [now apply usable_pointer |].
  split.
  { rewrite (ConnectBuf_resolved _ _ _ _ _ _ _ _ _ _ Hs Hr).
    rewrite (reuseChan_fanin w _ _ Hn Hu).
    now apply (wire_sender_fails _ _ _ _ _ _ _ _ _ _ t). }
  split; [reflexivity |]. split; [reflexivity |].
  split; [apply count_of_counted |].
  intros q Hq. unfold counted. rewrite count_of_set_count.
  now rewrite decide_False by congruence.
Qed.

End Rejection.

(** ** Buffer sizes, type mismatches and panics *)

Section Allocation.
Context {Net : Type}.
Variable getOutPort : Net -> string -> Value * error.
Variable getInPort : Net -> string -> Value * error.
Implicit Types (w : @World Net) (h : Heap) (ch port : Value).

Local Abbreviation resolve := (getProcPort getOutPort getInPort).
Local Abbreviation connect := (ConnectBuf getOutPort getInPort).

Lemma not_found_absent h v :
  valid_and_not_nil h v = Ret false -> invalid_or_nil h v = Ret true.
Proof.
  unfold valid_and_not_nil, invalid_or_nil.
  destruct (IsValid v); simpl; [| reflexivity].
  destruct (IsNil h v) as [[|] | msg]; simpl; congruence.
Qed.

Lemma chan_at_next h e b : chan_at (alloc h e b) (next_ptr h) = Some (mkChan e b).
Proof.
  unfold chan_at, next_ptr, alloc. simpl.
  destruct (N.eqb_spec (N.of_nat (S (length (chans h)))) 0) as [E | _]; [lia |].
  replace (N.to_nat (N.pred (N.of_nat (S (length (chans h)))))) with (length (chans h))
    by lia.
  rewrite lookup_app_r by lia. now rewrite Nat.sub_diag.
Qed.

(** Attaching a usable channel never makes one. *)
Lemma attachPort_usable_chans port dir ch b w :
  usable (snd w) ch = true ->
  chans (snd (snd (attachPort port dir ch b w))) = chans (snd w).
Proof.
  intros Hu.
  destruct (attachPort_cases port dir ch b w (or_intror Hu)); simpl; auto;
    match goal with
    | H : invalid_or_nil _ _ = Ret true |- _ =>
        rewrite (usable_not_nil _ _ Hu) in H; discriminate
    end.
Qed.

(** The heap of [wire] after the sender step made a channel. *)
Lemma wire_after_make sN sP rN rP b d e l recvPort ch isNew w :
  validateChanDir (ChanT d e) SendDir = None ->
  invalid_or_nil (snd w) ch = Ret true ->
  load (snd w) (VField (ChanT d e) false l) = 0%N ->
  (0 <= b <= makechan_limit (snd w) e)%Z ->
  let r := wire sN sP rN rP b (VField (ChanT d e) false l) recvPort ch isNew w in
  let new := VChan (ChanT BothDir e) (next_ptr (snd w)) in
  chans (snd (snd r)) = (chans (snd w) ++ [mkChan e b])%list /\
  (fst r = Ret None ->
   connections (fst (snd r)) =
     (connections (fst w) ++
      [mkConnection (parseAddress sN sP) (parseAddress rN rP) new b])%list).
Proof.
  intros Hv Hn Hl Hb r new. subst r. rewrite wire_eq.
  rewrite (attachPort_make d e l SendDir ch b w Hv Hn Hl Hb).
  set (w1 := (fst w, store (alloc (snd w) e b) l (next_ptr (snd w)))).
  assert (Hu : usable (snd w1) new = true).
  { apply usable_chan. unfold next_ptr. lia. }
  pose proof (attachPort_usable_chans recvPort RecvDir new b w1 Hu) as Hc2.
  destruct (attachPort_frame recvPort RecvDir new b w1) as [Hg2 _].
  fold new.
  destruct (attachPort recvPort RecvDir new b w1) as [[[ch2 [err |]] | msg] w2];
    simpl in *; try (split; [exact Hc2 | discriminate]).
  destruct (incChanListenersCount_connections new w2) as [Hc3 Hh3].
  destruct isNew.
  - destruct (incChanListenersCount new w2) as [[[] | msg] w3]; simpl in *.
    + rewrite Hh3, Hc2. split; [reflexivity |]. intros _.
      now rewrite Hc3, Hg2.
    + rewrite Hh3, Hc2. split; [reflexivity | discriminate].
  - unfold ret. simpl. split; [exact Hc2 |]. intros _. now rewrite Hg2.
Qed.

(** Attaching a usable channel either changes nothing or assigns it to
    the port variable. *)
Lemma attachPort_usable_heap port dir ch b w :
  usable (snd w) ch = true ->
  ((forall ch', fst (attachPort port dir ch b w) <> Ret (ch', None)) /\
   snd (attachPort port dir ch b w) = w) \/
  (exists l, attachPort port dir ch b w =
               (Ret (ch, None), (fst w, store (snd w) l (load (snd w) ch)))).
Proof.
  intros Hu.
  destruct (attachPort_cases port dir ch b w (or_intror Hu)); simpl;
    try match goal with
        | H : invalid_or_nil _ _ = Ret true |- _ =>
            rewrite (usable_not_nil _ _ Hu) in H; discriminate
        end;
    try (left; split; [intros ch'; discriminate | reflexivity]).
  right. eauto.
Qed.

(** The heap of [wire] after the sender step kept the channel its port
    already held. *)
Lemma wire_after_keep sN sP rN rP b d e l recvPort ch isNew w :
  validateChanDir (ChanT d e) SendDir = None ->
  invalid_or_nil (snd w) ch = Ret true ->
  load (snd w) (VField (ChanT d e) false l) <> 0%N ->
  let port := VField (ChanT d e) false l in
  let r := wire sN sP rN rP b port recvPort ch isNew w in
  chans (snd (snd r)) = chans (snd w) /\
  load (snd (snd r)) port = load (snd w) port /\
  (fst r = Ret None ->
   connections (fst (snd r)) =
     (connections (fst w) ++
      [mkConnection (parseAddress sN sP) (parseAddress rN rP) port b])%list).
Proof.
  intros Hv Hn Hl. cbv zeta. rewrite wire_eq.
  rewrite (attachPort_keep d e l SendDir ch b w Hv Hn Hl).
  set (port := VField (ChanT d e) false l) in *.
  set (w1 := (fst w, store (snd w) l (load (snd w) port))).
  assert (Hl1 : load (snd w1) port = load (snd w) port) by apply load_store_self.
  assert (Hu : usable (snd w1) port = true).
  { unfold usable. rewrite Hl1. simpl is_chan. simpl negb at 1.
    now apply negb_true_iff, N.eqb_neq. }
  destruct (attachPort_usable_heap recvPort RecvDir port b w1 Hu)
    as [[Hne E] | (l' & E)].
  - destruct (attachPort recvPort RecvDir port b w1) as [[[ch2 [err |]] | msg] w2];
      simpl in E; subst w2; simpl fst; simpl snd;
      try (split; [reflexivity | split; [exact Hl1 | discriminate]]).
    exfalso. now apply (Hne ch2).
  - rewrite E.
    set (w2 := (fst w1, store (snd w1) l' (load (snd w1) port))).
    assert (Hl2 : load (snd w2) port = load (snd w) port).
    { change (load (store (snd w1) l' (load (snd w1) port)) port = load (snd w) port).
      rewrite load_store_self. exact Hl1. }
    destruct (incChanListenersCount_connections port w2) as [Hc3 Hh3].
    destruct isNew.
    + destruct (incChanListenersCount port w2) as [[[] | msg] w3]; simpl in *.
      * rewrite Hh3. split; [reflexivity |]. split; [exact Hl2 |]. intros _.
        now rewrite Hc3.
      * rewrite Hh3. split; [reflexivity |]. split; [exact Hl2 | discriminate].
    + unfold ret. simpl. split; [reflexivity |]. split; [exact Hl2 |]. reflexivity.
Qed.

Lemma found_chan_wf w sa ra :
  wf w -> usable (snd w) (found_chan w sa ra) = true ->
  (has_match (connections (fst w)) sa SendDir = true /\
   found_chan w sa ra = findExistingChan (fst w) sa SendDir) \/
  (has_match (connections (fst w)) sa SendDir = false /\
   has_match (connections (fst w)) ra RecvDir = true /\
   found_chan w sa ra = findExistingChan (fst w) ra RecvDir).
Proof.
  intros Hw. unfold found_chan.
  pose proof (find_wf w sa SendDir Hw) as Hs.
  pose proof (find_wf w ra RecvDir Hw) as Hr.
  destruct (has_match _ sa SendDir).
  - destruct Hs as [-> _]. auto.
  - rewrite Hs. simpl. destruct (has_match _ ra RecvDir); [auto |].
    rewrite Hr. discriminate.
Qed.

(** C7 (amended): take a [ConnectBuf] call with requested size [b] in
    which both ends resolve, no channel is found to reuse, and the sender
    port is a settable channel field that permits sending.  When the port
    variable holds no channel yet and [b] is a size the runtime can make
    ([0 <= b] and [b] within its limit for the element type), the call
    allocates a new channel of capacity exactly [b] and of the element
    type of the sender port, which is the channel it records when it
    succeeds.  When the port variable already holds a channel, the call
    allocates none, whatever [b]: the variable keeps its channel, and the
    Connection recorded on success holds the sender port itself.  And in
    a graph built by the wiring calls, a successful [ConnectBuf] call
    that reuses a channel records that channel and allocates none,
    whatever size it was asked for. *)
Theorem buffer_size_on_allocation sN sP rN rP w :
  let sa := parseAddress sN sP in
  let ra := parseAddress rN rP in
  (forall b d e l recvPort,
      resolve (fst w) sN sP SendDir = Ret (VField (ChanT d e) false l, None) ->
      validateChanDir (ChanT d e) SendDir = None ->
      resolve (fst w) rN rP RecvDir = Ret (recvPort, None) ->
      invalid_or_nil (snd w) (findExistingChan (fst w) sa SendDir) = Ret true ->
      valid_and_not_nil (snd w) (findExistingChan (fst w) ra RecvDir) = Ret false ->
      load (snd w) (VField (ChanT d e) false l) = 0%N ->
      (0 <= b <= makechan_limit (snd w) e)%Z ->
      let r := connect sN sP rN rP b w in
      let new := VChan (ChanT BothDir e) (next_ptr (snd w)) in
      chans (snd (snd r)) = (chans (snd w) ++ [mkChan e b])%list /\
      chan_at (snd (snd r)) (next_ptr (snd w)) = Some (mkChan e b) /\
      chan_at (snd w) (next_ptr (snd w)) = None /\
      (fst r = Ret None ->
       connections (fst (snd r)) =
         (connections (fst w) ++ [mkConnection sa ra new b])%list)) /\
  (forall b d e l recvPort,
      resolve (fst w) sN sP SendDir = Ret (VField (ChanT d e) false l, None) ->
      validateChanDir (ChanT d e) SendDir = None ->
      resolve (fst w) rN rP RecvDir = Ret (recvPort, None) ->
      invalid_or_nil (snd w) (findExistingChan (fst w) sa SendDir) = Ret true ->
      valid_and_not_nil (snd w) (findExistingChan (fst w) ra RecvDir) = Ret false ->
      load (snd w) (VField (ChanT d e) false l) <> 0%N ->
      let r := connect sN sP rN rP b w in
      let held := VField (ChanT d e) false l in
      chans (snd (snd r)) = chans (snd w) /\
      load (snd (snd r)) held = load (snd w) held /\
      (fst r = Ret None ->
       connections (fst (snd r)) =
         (connections (fst w) ++ [mkConnection sa ra held b])%list)) /\
  (forall b' w',
      wf w ->
      usable (snd w) (found_chan w sa ra) = true ->
      connect sN sP rN rP b' w = (Ret None, w') ->
      connections (fst w') =
        (connections (fst w) ++ [mkConnection sa ra (found_chan w sa ra) b'])%list /\
      chans (snd w') = chans (snd w) /\
      load (snd w') (found_chan w sa ra) = load (snd w) (found_chan w sa ra)).
Proof.
  intros sa ra. split; [| split].
  - intros b d e l recvPort Hs Hv Hr Hn Hf Hl Hb r new. subst r.
    rewrite (ConnectBuf_resolved _ _ _ _ _ _ _ _ _ _ Hs Hr).
    fold sa ra. rewrite (reuseChan_none w sa ra Hn Hf).
    destruct (wire_after_make sN sP rN rP b d e l recvPort
                (findExistingChan (fst w) ra RecvDir) true w Hv
                (not_found_absent _ _ Hf) Hl Hb) as [Hc Hconn].
    split; [exact Hc |]. split.
    { unfold chan_at in *. rewrite Hc.
      pose proof (chan_at_next (snd w) e b) as E. unfold chan_at, alloc in E.
      exact E. }
    split; [| exact Hconn].
    unfold chan_at, next_ptr.
    destruct (N.eqb_spec (N.of_nat (S (length (chans (snd w))))) 0) as [_ | _];
      [reflexivity |].
    apply lookup_ge_None. lia.
  - intros b d e l recvPort Hs Hv Hr Hn Hf Hl r held. subst r.
    rewrite (ConnectBuf_resolved _ _ _ _ _ _ _ _ _ _ Hs Hr).
    fold sa ra. rewrite (reuseChan_none w sa ra Hn Hf).
    apply (wire_after_keep sN sP rN rP b d e l recvPort
             (findExistingChan (fst w) ra RecvDir) true w Hv
             (not_found_absent _ _ Hf) Hl).
  - intros b' w' Hw Hu H.
    destruct (ConnectBuf_success _ _ _ _ _ _ _ _ _ Hw H)
      as (ch' & Hc & _ & _ & Hout & Hin & _).
    fold sa ra in Hc, Hout, Hin.
    destruct (found_chan_wf w sa ra Hw Hu) as [[Ms ->] | (Ms & Mr & ->)].
    + destruct (Hout Ms) as (-> & Hch & Hl & _). auto.
    + destruct (Hin Ms Mr) as (-> & Hch & Hl & _). auto.
Qed.

End Allocation.

Section Panics.
Context {Net : Type}.
Variable getOutPort : Net -> string -> Value * error.
Variable getInPort : Net -> string -> Value * error.
Implicit Types (w : @World Net) (h : Heap) (ch port : Value).

Local Abbreviation resolve := (getProcPort getOutPort getInPort).
Local Abbreviation connect := (ConnectBuf getOutPort getInPort).




End Panics.

(** ** The invariant is kept by every call, however it ends *)

Section Preservation.
Context {Net : Type}.
Variable getOutPort : Net -> string -> Value * error.
Variable getInPort : Net -> string -> Value * error.
Implicit Types (w : @World Net) (h : Heap) (ch port : Value).

Local Abbreviation connect := (ConnectBuf getOutPort getInPort).

Lemma wire_wf sN sP rN rP b sendPort recvPort ch (isNew : bool) w :
  wf w ->
  ch = VZero \/ (usable (snd w) ch = true /\ live (snd w) (load (snd w) ch)) ->
  wf (snd (wire sN sP rN rP b sendPort recvPort ch isNew w)).
Proof.
  intros Hw Hch. rewrite wire_eq.
  assert (Hch1 : invalid_or_nil (snd w) ch = Ret true \/
                 (usable (snd w) ch = true /\ live (snd w) (load (snd w) ch))).
  { destruct Hch as [-> | H]; [left; reflexivity | now right]. }
  destruct (attachPort_wf sendPort SendDir ch b w Hw Hch1) as [Hw1 Hu1].
  destruct (attachPort sendPort SendDir ch b w) as [[[ch1 [e |]] | msg] w1];
    simpl in *; auto.
  destruct (Hu1 ch1 eq_refl) as [Huse1 Hlive1].
  destruct (attachPort_wf recvPort RecvDir ch1 b w1 Hw1 (or_intror (conj Huse1 Hlive1)))
    as [Hw2 Hu2].
  pose proof (attachPort_cases recvPort RecvDir ch1 b w1 (or_intror Huse1)) as Hc2.
  destruct (attachPort recvPort RecvDir ch1 b w1) as [[[ch2 [e |]] | msg] w2];
    simpl in *; auto.
  destruct (Hu2 ch2 eq_refl) as [Huse2 Hlive2].
  assert (E : ch2 = ch1).
  { inversion Hc2; subst; auto;
      match goal with
      | H : invalid_or_nil _ _ = Ret true |- _ =>
          rewrite (usable_not_nil _ _ Huse1) in H; discriminate
      end. }
  subst ch2. destruct w2 as [n2 h2]. simpl in *.
  destruct isNew.
  - rewrite (incChanListenersCount_eq (n2, h2) ch1 (load h2 ch1))
      by now apply usable_pointer.
    simpl. apply wf_add_connection; auto. now apply wf_set_count.
  - unfold ret. simpl. now apply wf_add_connection.
Qed.

(** Every call of [ConnectBuf] keeps the invariant, whether it succeeds,
    returns an error or panics. *)
Lemma ConnectBuf_wf sN sP rN rP b w :
  wf w -> wf (snd (connect sN sP rN rP b w)).
Proof.
  intros Hw. rewrite ConnectBuf_eq.
  destruct (getProcPort _ _ (fst w) sN sP SendDir) as [[sendPort [e |]] | msg]; auto.
  destruct (getProcPort _ _ (fst w) rN rP RecvDir) as [[recvPort [e |]] | msg]; auto.
  rewrite (reuseChan_wf w _ _ Hw).
  pose proof (find_wf w (parseAddress sN sP) SendDir Hw) as Hfs.
  pose proof (find_wf w (parseAddress rN rP) RecvDir Hw) as Hfr.
  destruct (has_match _ _ SendDir).
  - apply wire_wf; auto.
  - destruct (has_match _ _ RecvDir).
    + apply wire_wf; [| now right].
      destruct w as [n h]. simpl in *. apply wf_set_count; [exact Hw | apply Hfr].
    + apply wire_wf; auto.
Qed.

End Preservation.

(** ** The example network *)

Lemma wf_demo : wf demo.
Proof.
  apply wf_fresh; try reflexivity.
  intros l p. simpl. rewrite lookup_empty. discriminate.
Qed.

Lemma wf_demo_AB : wf demo_AB.
Proof. apply ConnectBuf_wf, wf_demo. Qed.

(** C1, as stated, fails: after X.Out -> B.In, the call A.Out -> B.In joins
    the channel of B.In, whose count becomes 2; the call A.Out -> C.In then
    shares that channel: both calls succeed, with the same sender address
    and distinct receivers, and the count of the shared channel is 2. *)
Lemma fan_out_count_not_one :
  fst (demoConnectBuf "A" "Out" "B" "In" 0 demo_XB) = Ret None /\
  fst (demoConnectBuf "A" "Out" "C" "In" 0 demo_XB_AB) = Ret None /\
  parseAddress "B" "In" <> parseAddress "C" "In" /\
  map channel (connections (fst demo_XB_AB_AC)) = [chan1; chan1; chan1] /\
  Pointer (snd demo_XB_AB_AC) chan1 = Ret 1%N /\
  count_of (fst demo_XB_AB_AC) 1 = 2%N /\
  count_of (fst demo_XB_AB_AC) 1 <> 1%N.
Proof. vm_compute. repeat split; congruence. Qed.

Lemma fan_out_shares_channel_witness :
  exists ch ptr,
    connections (fst demo_AB_AC) =
      (connections (fst demo) ++
       [mkConnection (parseAddress "A" "Out") (parseAddress "B" "In") ch 10;
        mkConnection (parseAddress "A" "Out") (parseAddress "C" "In") ch 5])%list /\
    Pointer (snd demo_AB) ch = Ret ptr /\
    Pointer (snd demo_AB_AC) ch = Ret ptr /\
    chanListenersCount (fst demo_AB_AC) = chanListenersCount (fst demo_AB) /\
    (chans (snd demo_AB) <> chans (snd demo) -> count_of (fst demo_AB_AC) ptr = 1%N).
Proof.
  apply (fan_out_shares_channel demoOutPort demoInPort
           "A" "Out" "B" "In" 10 "A" "Out" "C" "In" 5 demo demo_AB demo_AB_AC).
  - exact wf_demo.
  - vm_compute. reflexivity.
  - vm_compute. reflexivity.
  - reflexivity.
Defined.

(** C2, as stated, fails: after C.Out -> C.In, the call A.Out -> B.In makes
    a new channel, and the call C.Out -> B.In, from a different sender to
    the same receiver address, succeeds by sharing the channel C.Out
    already has: it does not adopt the channel of the first call, and the
    count of that channel stays 1. *)
Lemma fan_in_not_adopted :
  fst (demoConnectBuf "A" "Out" "B" "In" 0 demo_CC) = Ret None /\
  chans (snd demo_CC_AB) <> chans (snd demo_CC) /\
  fst (demoConnectBuf "C" "Out" "B" "In" 0 demo_CC_AB) = Ret None /\
  parseAddress "C" "Out" <> parseAddress "A" "Out" /\
  map channel (connections (fst demo_CC_AB_CB)) = [chan1; chan2; chan1] /\
  count_of (fst demo_CC_AB_CB) 2 = 1%N /\
  count_of (fst demo_CC_AB_CB) 2 <> 2%N.
Proof. vm_compute. repeat split; congruence. Qed.

Lemma fan_in_counts_senders_witness :
  exists ch ptr sendPort recvPort wm,
    connections (fst demo_AB_CB) =
      (connections (fst demo) ++
       [mkConnection (parseAddress "A" "Out") (parseAddress "B" "In") ch 10;
        mkConnection (parseAddress "C" "Out") (parseAddress "B" "In") ch 5])%list /\
    parseAddress "C" "Out" <> parseAddress "A" "Out" /\
    Pointer (snd demo_AB) ch = Ret ptr /\
    Pointer (snd demo_AB_CB) ch = Ret ptr /\
    count_of (fst demo_AB) ptr = 1%N /\
    reuseChan (parseAddress "C" "Out") (parseAddress "B" "In") demo_AB
      = (Ret (ch, false), wm) /\
    snd wm = snd demo_AB /\
    connections (fst wm) = connections (fst demo_AB) /\
    count_of (fst wm) ptr = 2%N /\
    wire "C" "Out" "B" "In" 5 sendPort recvPort ch false wm = (Ret None, demo_AB_CB) /\
    count_of (fst demo_AB_CB) ptr = 2%N.
Proof.
  apply (fan_in_counts_senders demoOutPort demoInPort
           "A" "Out" "B" "In" 10 "C" "Out" "B" "In" 5 demo demo_AB demo_AB_CB).
  - exact wf_demo.
  - vm_compute. reflexivity.
  - vm_compute. congruence.
  - vm_compute. reflexivity.
  - reflexivity.
  - vm_compute. reflexivity.
Defined.

(** C3, as stated, fails: both ends are resolved before anything is
    attached.  The sender port B.In resolves to a receive-only channel
    field, but the receiver Z is not registered: the call returns the
    resolver's error for Z, not the wrong-direction error for B.In. *)
Lemma receive_only_sender_other_error :
  wf demo_AB /\
  getProcPort demoOutPort demoInPort (fst demo_AB) "B" "In" SendDir =
    Ret (port_field RecvDir "int" 2, None) /\
  TypeOf (port_field RecvDir "int" 2) = Ret (ChanT RecvDir "int") /\
  demoConnectBuf "B" "In" "Z" "In" 0 demo_AB =
    (Ret (Some "connect: process 'Z' not found"), demo_AB) /\
  fst (demoConnectBuf "B" "In" "Z" "In" 0 demo_AB) <>
    Ret (Some "connect 'B.In': channel does not support direction chan<-").
Proof.
  split; [exact wf_demo_AB |].
  vm_compute. repeat split; congruence.
Qed.

Lemma receive_only_sender_rejected_witness :
  exists w',
    demoConnectBuf "B" "In" "C" "In" 0 demo_AB =
      (Ret (Some "connect 'B.In': channel does not support direction chan<-"), w') /\
    connections (fst w') = connections (fst demo_AB) /\
    snd w' = snd demo_AB.
Proof.
  apply (receive_only_sender_rejected demoOutPort demoInPort
           "B" "In" "C" "In" 0 demo_AB
           (port_field RecvDir "int" 2) (port_field RecvDir "int" 4) "int").
  - exact wf_demo_AB.
  - vm_compute. reflexivity.
  - reflexivity.
  - vm_compute. reflexivity.
Defined.

Lemma fan_in_count_survives_failure_witness :
  demoConnectBuf "B" "In" "B" "In" 0 demo_AB =
    (Ret (Some "connect 'B.In': channel does not support direction chan<-"),
     (counted (fst demo_AB) 1, snd demo_AB)) /\
  count_of (fst demo_AB) 1 = 1%N /\
  count_of (counted (fst demo_AB) 1) 1 = 2%N.
Proof.
  destruct (fan_in_count_survives_failure demoOutPort demoInPort
              "B" "In" "B" "In" 0 demo_AB
              (port_field RecvDir "int" 2) (port_field RecvDir "int" 2)
              (ChanT RecvDir "int") "channel does not support direction chan<-")
    as (_ & H & _).
  - vm_compute. reflexivity.
  - vm_compute. reflexivity.
  - vm_compute. reflexivity.
  - vm_compute. reflexivity.
  - reflexivity.
  - left. reflexivity.
  - split; [exact H |]. split; vm_compute; reflexivity.
Defined.

(** C7, as stated, fails: E.Out -> B.Bad (size 10) fails at the receiver
    after the sender port got its channel, and records nothing; the call
    E.Out -> B.In (size 5) then finds no channel to reuse, succeeds, and
    allocates nothing: it records the channel E.Out holds, of capacity 10. *)
Lemma no_allocation_for_held_channel :
  fst (demoConnectBuf "E" "Out" "B" "Bad" 10 demo) =
    Ret (Some "connect 'B.Bad': channel does not support direction <-chan") /\
  connections (fst demo_EBad) = [] /\
  findExistingChan (fst demo_EBad) (parseAddress "E" "Out") SendDir = VZero /\
  findExistingChan (fst demo_EBad) (parseAddress "B" "In") RecvDir = VZero /\
  fst (demoConnectBuf "E" "Out" "B" "In" 5 demo_EBad) = Ret None /\
  chans (snd demo_EBad_EB) = chans (snd demo_EBad) /\
  chans (snd demo_EBad_EB) = [mkChan "int" 10] /\
  map channel (connections (fst demo_EBad_EB)) = [port_field BothDir "int" 9] /\
  map buffer (connections (fst demo_EBad_EB)) = [5%Z] /\
  chan_at (snd demo_EBad_EB) (load (snd demo_EBad_EB) (port_field BothDir "int" 9))
    = Some (mkChan "int" 10).
Proof. vm_compute. repeat split; congruence. Qed.

Lemma buffer_size_on_allocation_witness :
  (chans (snd demo_AB) = [mkChan "int" 10] /\
   chan_at (snd demo_AB) 1 = Some (mkChan "int" 10) /\
   chan_at (snd demo) 1 = None /\
   (fst (demoConnectBuf "A" "Out" "B" "In" 10 demo) = Ret None ->
    connections (fst demo_AB) =
      [mkConnection (parseAddress "A" "Out") (parseAddress "B" "In") chan1 10])) /\
  (chans (snd demo_EBad_EB) = chans (snd demo_EBad) /\
   load (snd demo_EBad_EB) (port_field BothDir "int" 9) =
     load (snd demo_EBad) (port_field BothDir "int" 9) /\
   (fst (demoConnectBuf "E" "Out" "B" "In" 5 demo_EBad) = Ret None ->
    connections (fst demo_EBad_EB) =
      (connections (fst demo_EBad) ++
       [mkConnection (parseAddress "E" "Out") (parseAddress "B" "In")
          (port_field BothDir "int" 9) 5])%list)) /\
  (connections (fst demo_AB_AC) =
     (connections (fst demo_AB) ++
      [mkConnection (parseAddress "A" "Out") (parseAddress "C" "In") chan1 5])%list /\
   chans (snd demo_AB_AC) = chans (snd demo_AB) /\
   load (snd demo_AB_AC) chan1 = load (snd demo_AB) chan1).
Proof.
  split; [| split].
  - destruct (buffer_size_on_allocation demoOutPort demoInPort "A" "Out" "B" "In" demo)
      as (Hnew & _).
    apply (Hnew 10%Z SendDir "int" 1%N (port_field RecvDir "int" 2));
      try (vm_compute; reflexivity).
    split; vm_compute; discriminate.
  - destruct (buffer_size_on_allocation demoOutPort demoInPort "E" "Out" "B" "In"
                demo_EBad) as (_ & Hheld & _).
    apply (Hheld 5%Z BothDir "int" 9%N (port_field RecvDir "int" 2));
      try (vm_compute; reflexivity).
    vm_compute. discriminate.
  - destruct (buffer_size_on_allocation demoOutPort demoInPort "A" "Out" "C" "In" demo_AB)
      as (_ & _ & Hreuse).
    apply (Hreuse 5%Z demo_AB_AC).
    + exact wf_demo_AB.
    + vm_compute. reflexivity.
    + vm_compute. reflexivity.
Defined.



(** * Further properties of the wiring code *)

(** ** [parseAddress] *)

(** X1: [parseAddress] never slices out of range: when the loop has read
    the bytes [pre] of the text [pre ++ rest], its index is the length of
    [pre], within the text, and [keyPos] is at most the index, so that
    [port[0:i]] and [port[keyPos:i]] are well-formed slices at every [[]
    and every []]. *)
Theorem parseAddress_slices_in_range (pre rest : string) :
  let port := pre +:+ rest in
  let st := parse_loop port pre (init_state port) in
  parse_loop port port (init_state port) = parse_loop port rest st /\
  ps_i st = String.length pre /\
  ps_keyPos st <= ps_i st /\
  ps_i st <= String.length port.
Proof.
  intros port st. subst st.
  split; [unfold port at 2; apply parse_loop_append |].
  split; [rewrite parse_loop_i; reflexivity |].
  split.
  - apply parse_loop_keyPos_le. simpl. lia.
  - rewrite parse_loop_i. unfold port. rewrite length_append. simpl. lia.
Qed.

(** X2: port texts of the form [name[key]] whose keys hold no [[] parse to
    the address made of the name and the key, so that two of them have
    equal addresses only if process, name and key are equal: keyed ports
    never share a lookup key. *)
Theorem parseAddress_keyed_injective (p n k p' n' k' : string) :
  occurs lbracket k = false ->
  occurs lbracket k' = false ->
  parseAddress p (n +:+ "[" +:+ k +:+ "]") = parseAddress p' (n' +:+ "[" +:+ k' +:+ "]") ->
  p = p' /\ n = n' /\ k = k'.
Proof.
  intros Hk Hk' E.
  assert (F : forall q m j, occurs lbracket j = false ->
            parseAddress q (m +:+ "[" +:+ j +:+ "]") = mkAddress q m j).
  { intros q m j Hj. apply address_eq.
    - apply parseAddress_proc.
    - apply (parseAddress_port_last q m (j +:+ rb)).
      rewrite occurs_append, Hj. reflexivity.
    - apply (parseAddress_key_bracketed q m j ""); [exact Hj | reflexivity]. }
  rewrite (F p n k Hk), (F p' n' k' Hk') in E.
  now injection E.
Qed.

Lemma parseAddress_keyed_injective_witness :
  parseAddress "P" ("In" +:+ "[" +:+ "1" +:+ "]") =
    parseAddress "P" ("In" +:+ "[" +:+ "1" +:+ "]") /\
  ("P" = "P" /\ "In" = "In" /\ "1" = "1").
Proof.
  split; [reflexivity |].
  apply (parseAddress_keyed_injective "P" "In" "1" "P" "In" "1"); reflexivity.
Defined.

(** ** [findExistingChan] *)

Section FirstMatch.
Context {Net : Type}.

Lemma has_match_false (conns : list connection) addr dir :
  has_match conns addr dir = false <->
  Forall (fun c => conn_end dir c <> addr) conns.
Proof.
  induction conns as [|c rest IH]; simpl.
  - split; [constructor | reflexivity].
  - rewrite orb_false_iff, IH. unfold conn_end at 1. split.
    + intros [H1 H2]. constructor; [| exact H2].
      now apply bool_decide_eq_false in H1.
    + intros H. inversion H; subst. split; [| assumption].
      now apply bool_decide_eq_false.
Qed.

(** X3: [findExistingChan] returns the zero Value when no recorded
    connection has the address at the end the direction looks at, and the
    channel of the first such connection otherwise, whatever follows it:
    connections appended later never change what a lookup finds. *)
Theorem findExistingChan_first_match (n : @Graph Net) (addr : address) (dir : ChanDir) :
  (Forall (fun c => conn_end dir c <> addr) (connections n) ->
   findExistingChan n addr dir = VZero) /\
  (forall before c after,
      connections n = (before ++ c :: after)%list ->
      Forall (fun c' => conn_end dir c' <> addr) before ->
      conn_end dir c = addr ->
      findExistingChan n addr dir = channel c /\
      forall more,
        findExistingChan_loop (connections n ++ more) addr dir = channel c).
Proof.
  split.
  - intros H. apply find_no_match. now apply has_match_false.
  - intros before c after E Hb Hc.
    apply has_match_false in Hb.
    assert (F : forall tail, findExistingChan_loop (before ++ c :: tail) addr dir
                             = channel c).
    { intros tail. rewrite find_app, Hb. simpl. fold (conn_end dir c).
      now rewrite bool_decide_eq_true_2. }
    unfold findExistingChan. rewrite E. split; [apply F |].
    intros more. rewrite <- app_assoc. simpl. apply F.
Qed.

End FirstMatch.

Lemma findExistingChan_first_match_witness :
  findExistingChan (fst demo_XB_AB_AC) (parseAddress "B" "In") RecvDir = chan1 /\
  findExistingChan (fst demo_XB_AB_AC) (parseAddress "Z" "In") RecvDir = VZero.
Proof.
  destruct (findExistingChan_first_match (fst demo_XB_AB_AC) (parseAddress "B" "In") RecvDir)
    as [_ Hfirst].
  destruct (findExistingChan_first_match (fst demo_XB_AB_AC) (parseAddress "Z" "In") RecvDir)
    as [Hnone _].
  split.
  - refine (proj1 (Hfirst []
              (mkConnection (parseAddress "X" "Out") (parseAddress "B" "In") chan1 0)
              [mkConnection (parseAddress "A" "Out") (parseAddress "B" "In") chan1 0;
               mkConnection (parseAddress "A" "Out") (parseAddress "C" "In") chan1 0]
              _ _ _)).
    + vm_compute. reflexivity.
    + constructor.
    + reflexivity.
  - apply Hnone. vm_compute. repeat constructor; discriminate.
Defined.

(** ** Counting and uncounting listeners *)

Section CountRoundTrip.
Context {Net : Type}.
Implicit Types (w : @World Net) (c : Value) (ptr : N).

Lemma inc_times_count (k : nat) : forall w c ptr,
  Pointer (snd w) c = Ret ptr ->
  (count_of (fst w) ptr + N.of_nat k < uint_modulus)%N ->
  count_of (fst (inc_times k c w)) ptr = (count_of (fst w) ptr + N.of_nat k)%N /\
  snd (inc_times k c w) = snd w /\
  connections (fst (inc_times k c w)) = connections (fst w) /\
  (forall q, q <> ptr -> count_of (fst (inc_times k c w)) q = count_of (fst w) q).
Proof.
  induction k as [|k IH]; intros w c ptr Hp Hlt.
  - simpl. rewrite N.add_0_r. auto.
  - rewrite Nat2N.inj_succ in *.
    simpl. rewrite (incChanListenersCount_eq w c ptr Hp). simpl.
    set (w1 := (counted (fst w) ptr, snd w)).
    assert (Hc1 : count_of (fst w1) ptr = (count_of (fst w) ptr + 1)%N).
    { subst w1. simpl. unfold counted.
      rewrite count_of_set_count, decide_True by reflexivity.
      apply N.mod_small. lia. }
    destruct (IH w1 c ptr Hp) as (E1 & E2 & E3 & E4); [rewrite Hc1; lia |].
    fold (counted (fst w) ptr). fold w1.
    rewrite E1, E2, E3, Hc1. repeat split; try reflexivity; try lia.
    intros q Hq. rewrite (E4 q Hq). subst w1. simpl. unfold counted.
    rewrite count_of_set_count. now rewrite decide_False by congruence.
Qed.

(** X4: a decrement undoes an increment: after [incChanListenersCount]
    on a channel whose count is below the largest [uint],
    [decChanListenersCount] on it returns whether the count was 0 before
    the increment and leaves every count as it was before the two calls,
    the heap and the connections untouched. *)
Theorem dec_undoes_inc w c ptr :
  Pointer (snd w) c = Ret ptr ->
  (count_of (fst w) ptr + 1 < uint_modulus)%N ->
  exists w',
    decChanListenersCount c (snd (incChanListenersCount c w)) =
      (Ret (N.eqb (count_of (fst w) ptr) 0), w') /\
    (forall q, count_of (fst w') q = count_of (fst w) q) /\
    snd w' = snd w /\
    connections (fst w') = connections (fst w) /\
    procs (fst w') = procs (fst w).
Proof.
  intros Hp Hlt.
  rewrite (incChanListenersCount_eq w c ptr Hp). simpl.
  set (w1 := (set_count (fst w) ptr ((count_of (fst w) ptr + 1) mod uint_modulus)%N,
              snd w)).
  assert (Hc1 : count_of (fst w1) ptr = (count_of (fst w) ptr + 1)%N).
  { subst w1. simpl. rewrite count_of_set_count, decide_True by reflexivity.
    apply N.mod_small. lia. }
  rewrite (decChanListenersCount_pos w1 c ptr Hp) by (rewrite Hc1; lia).
  rewrite Hc1.
  replace (N.pred (count_of (fst w) ptr + 1)) with (count_of (fst w) ptr) by lia.
  eexists. split; [reflexivity |].
  simpl. repeat split; try reflexivity.
  intros q. rewrite count_of_set_count.
  destruct (decide (ptr = q)) as [<- | Hne]; [reflexivity |].
  subst w1. simpl. rewrite count_of_set_count. now rewrite decide_False.
Qed.

(** X5: counting [k >= 1] listeners on a channel that had none and then
    uncounting [k] times: the first [k - 1] decrements return false and
    the last one returns true, so exactly one of the [k] senders is told
    to close the channel. *)
Theorem last_of_counted_senders_closes w c ptr (k : nat) :
  Pointer (snd w) c = Ret ptr ->
  count_of (fst w) ptr = 0%N ->
  1 <= k ->
  (N.of_nat k < uint_modulus)%N ->
  fst (dec_times k c (inc_times k c w)) = (repeat (Ret false) (k - 1) ++ [Ret true])%list /\
  count_of (fst (snd (dec_times k c (inc_times k c w)))) ptr = 0%N.
Proof.
  intros Hp H0 Hk Hlt.
  destruct (inc_times_count k w c ptr Hp) as (E1 & E2 & _); [rewrite H0; lia |].
  rewrite H0, N.add_0_l in E1.
  destruct k as [|m]; [lia |].
  replace (S m - 1) with m by lia.
  apply (dec_times_count m (inc_times (S m) c w) c ptr); [now rewrite E2 | exact E1].
Qed.

End CountRoundTrip.

Lemma dec_undoes_inc_witness :
  exists w',
    decChanListenersCount chan1 (snd (incChanListenersCount chan1 demo_AB)) =
      (Ret (N.eqb (count_of (fst demo_AB) 1) 0), w') /\
    (forall q, count_of (fst w') q = count_of (fst demo_AB) q) /\
    snd w' = snd demo_AB /\
    connections (fst w') = connections (fst demo_AB) /\
    procs (fst w') = procs (fst demo_AB).
Proof.
  apply (dec_undoes_inc demo_AB chan1 1%N); [reflexivity | vm_compute; reflexivity].
Defined.

Lemma last_of_counted_senders_closes_witness :
  fst (dec_times 3 chan1 (inc_times 3 chan1 demo)) = [Ret false; Ret false; Ret true] /\
  count_of (fst (snd (dec_times 3 chan1 (inc_times 3 chan1 demo)))) 1 = 0%N.
Proof.
  apply (last_of_counted_senders_closes demo chan1 1%N 3);
    [reflexivity | reflexivity | lia | vm_compute; reflexivity].
Defined.

(** ** What a call of [ConnectBuf] touches *)

Section Frame.
Context {Net : Type}.
Variable getOutPort : Net -> string -> Value * error.
Variable getInPort : Net -> string -> Value * error.
Implicit Types (w : @World Net) (h : Heap) (ch port : Value).

Local Abbreviation connect := (ConnectBuf getOutPort getInPort).

Lemma same_registry_refl (n : @Graph Net) : same_registry n n.
Proof. split; reflexivity. Qed.

Lemma same_registry_trans (n1 n2 n3 : @Graph Net) :
  same_registry n1 n2 -> same_registry n2 n3 -> same_registry n1 n3.
Proof. intros [A B] [C D]. split; congruence. Qed.

Lemma incChanListenersCount_registry ch w :
  same_registry (fst w) (fst (snd (incChanListenersCount ch w))).
Proof.
  unfold incChanListenersCount, bind, lift. simpl.
  destruct (Pointer _ _) as [ptr | msg]; simpl; split; reflexivity.
Qed.

Lemma reuseChan_registry sa ra w :
  same_registry (fst w) (fst (snd (reuseChan sa ra w))).
Proof.
  unfold reuseChan, bind, lift, ret. simpl.
  destruct (invalid_or_nil _ _) as [[|] | msg]; simpl; try (split; reflexivity).
  destruct (valid_and_not_nil _ _) as [[|] | msg]; simpl; try (split; reflexivity).
  pose proof (incChanListenersCount_registry
                (findExistingChan (fst w) ra RecvDir) w) as H.
  destruct (incChanListenersCount _ w) as [[[] | msg] w1]; exact H.
Qed.

(** [wire] in every outcome: the registry stays, and the connection list
    gets one more entry exactly when the call succeeds. *)
Lemma wire_outcome sN sP rN rP b sendPort recvPort ch isNew w :
  let r := wire sN sP rN rP b sendPort recvPort ch isNew w in
  same_registry (fst w) (fst (snd r)) /\
  match fst r with
  | Ret None =>
      exists ch', connections (fst (snd r)) =
        (connections (fst w) ++
         [mkConnection (parseAddress sN sP) (parseAddress rN rP) ch' b])%list
  | _ => connections (fst (snd r)) = connections (fst w)
  end.
Proof.
  intros r. subst r. rewrite wire_eq.
  destruct (attachPort_frame sendPort SendDir ch b w) as [Hg1 _].
  destruct (attachPort sendPort SendDir ch b w) as [[[ch1 [e |]] | msg] w1];
    simpl in *; try (rewrite Hg1; split; [split; reflexivity | reflexivity]).
  destruct (attachPort_frame recvPort RecvDir ch1 b w1) as [Hg2 _].
  destruct (attachPort recvPort RecvDir ch1 b w1) as [[[ch2 [e |]] | msg] w2];
    simpl in *; try (rewrite Hg2, Hg1; split; [split; reflexivity | reflexivity]).
  pose proof (incChanListenersCount_connections ch1 w2) as [Hc3 _].
  pose proof (incChanListenersCount_registry ch1 w2) as Hr3.
  rewrite <- Hg1, <- Hg2.
  destruct isNew.
  - destruct (incChanListenersCount ch1 w2) as [[[] | msg] w3]; simpl in *.
    + split; [exact Hr3 |]. exists ch1. now rewrite Hc3.
    + split; [exact Hr3 | exact Hc3].
  - unfold ret. simpl. split; [split; reflexivity |]. now exists ch1.
Qed.

(** X6: the connection list only grows at its end, by one entry per
    successful call: a call of [ConnectBuf] that returns no error appends
    exactly one Connection, with the two parsed addresses and the
    requested buffer size, after the Connections already recorded; a call
    that returns an error or panics leaves the list as it is. *)
Theorem ConnectBuf_appends_one sN sP rN rP b w :
  let r := connect sN sP rN rP b w in
  match fst r with
  | Ret None =>
      exists ch, connections (fst (snd r)) =
        (connections (fst w) ++
         [mkConnection (parseAddress sN sP) (parseAddress rN rP) ch b])%list
  | _ => connections (fst (snd r)) = connections (fst w)
  end.
Proof.
  intros r. subst r. rewrite ConnectBuf_eq.
  destruct (getProcPort _ _ (fst w) sN sP SendDir) as [[sendPort [e |]] | msg];
    try reflexivity.
  destruct (getProcPort _ _ (fst w) rN rP RecvDir) as [[recvPort [e |]] | msg];
    try reflexivity.
  destruct (reuseChan_connections (parseAddress sN sP) (parseAddress rN rP) w) as [Hc _].
  destruct (reuseChan _ _ w) as [[[ch isNew] | msg] w1]; simpl in *; [| exact Hc].
  destruct (wire_outcome sN sP rN rP b sendPort recvPort ch isNew w1) as [_ H].
  rewrite Hc in H. exact H.
Qed.

Lemma ConnectBuf_registry sN sP rN rP b w :
  same_registry (fst w) (fst (snd (connect sN sP rN rP b w))).
Proof.
  rewrite ConnectBuf_eq.
  destruct (getProcPort _ _ (fst w) sN sP SendDir) as [[sendPort [e |]] | msg];
    try (split; reflexivity).
  destruct (getProcPort _ _ (fst w) rN rP RecvDir) as [[recvPort [e |]] | msg];
    try (split; reflexivity).
  pose proof (reuseChan_registry (parseAddress sN sP) (parseAddress rN rP) w) as Hr.
  destruct (reuseChan _ _ w) as [[[ch isNew] | msg] w1]; simpl in *; [| exact Hr].
  eapply same_registry_trans; [exact Hr |].
  apply (wire_outcome sN sP rN rP b sendPort recvPort ch isNew w1).
Qed.

Lemma ConnectBuf_step sN sP rN rP b w :
  exists one,
    connections (fst (snd (connect sN sP rN rP b w))) = (connections (fst w) ++ one)%list /\
    length one <= 1.
Proof.
  rewrite ConnectBuf_eq.
  assert (Z0 : forall l : list connection, exists one, l = (l ++ one)%list /\ length one <= 1).
  { intros l. exists []. split; [now rewrite app_nil_r | simpl; lia]. }
  destruct (getProcPort _ _ (fst w) sN sP SendDir) as [[sendPort [e |]] | msg];
    try apply Z0.
  destruct (getProcPort _ _ (fst w) rN rP RecvDir) as [[recvPort [e |]] | msg];
    try apply Z0.
  destruct (reuseChan_connections (parseAddress sN sP) (parseAddress rN rP) w) as [Hc _].
  destruct (reuseChan _ _ w) as [[[ch isNew] | msg] w1]; simpl in *;
    [| rewrite Hc; apply Z0].
  destruct (wire_outcome sN sP rN rP b sendPort recvPort ch isNew w1) as [_ H].
  rewrite Hc in H.
  destruct (fst (wire sN sP rN rP b sendPort recvPort ch isNew w1)) as [[e |] | msg];
    try (rewrite H; apply Z0).
  destruct H as [ch' H]. eexists. split; [exact H | simpl; lia].
Qed.

(** X7: no sequence of [ConnectBuf] calls, whatever each returns, changes
    the process registry or the configured buffer size, removes or
    reorders a recorded Connection, or records more Connections than
    there were calls. *)
Theorem connect_all_keeps_registry (calls : list call) w :
  let w' := connect_all getOutPort getInPort calls w in
  procs (fst w') = procs (fst w) /\
  conf_BufferSize (fst w') = conf_BufferSize (fst w) /\
  (exists added, connections (fst w') = (connections (fst w) ++ added)%list /\
                 length added <= length calls).
Proof.
  revert w. induction calls as [|c rest IH]; intros w; simpl.
  - repeat split. exists []. split; [now rewrite app_nil_r | simpl; lia].
  - set (w1 := snd (connect (c_sender c) (c_senderPort c) (c_receiver c)
                      (c_receiverPort c) (c_buffer c) w)).
    destruct (IH w1) as (Hp & Hb & added & Ha & Hlen).
    destruct (ConnectBuf_registry (c_sender c) (c_senderPort c) (c_receiver c)
                (c_receiverPort c) (c_buffer c) w) as [Hp1 Hb1].
    fold w1 in Hp1, Hb1.
    split; [congruence |]. split; [congruence |].
    pose proof (ConnectBuf_step (c_sender c) (c_senderPort c) (c_receiver c)
                  (c_receiverPort c) (c_buffer c) w) as H1.
    fold w1 in H1. destruct H1 as (one & H1 & Hone).
    exists (one ++ added)%list. split.
    + rewrite Ha, H1. now rewrite app_assoc.
    + rewrite length_app. lia.
Qed.

End Frame.

(** ** Both ends of a connection *)

Section Wired.
Context {Net : Type}.
Variable getOutPort : Net -> string -> Value * error.
Variable getInPort : Net -> string -> Value * error.
Implicit Types (w : @World Net) (h : Heap) (ch port : Value).

Local Abbreviation resolve := (getProcPort getOutPort getInPort).
Local Abbreviation connect := (ConnectBuf getOutPort getInPort).

(** After a successful attach the port variable holds the channel the
    step returned. *)
Lemma attachPort_holds port dir ch b w ch1 w1 :
  invalid_or_nil (snd w) ch = Ret true \/ usable (snd w) ch = true ->
  attachPort port dir ch b w = (Ret (ch1, None), w1) ->
  CanSet port = true /\
  load (snd w1) port = load (snd w1) ch1 /\
  (usable (snd w) ch = true ->
   exists T l, port = VField T false l /\ ch1 = ch /\
               w1 = (fst w, store (snd w) l (load (snd w) ch))).
Proof.
  intros Hch H.
  pose proof (attachPort_cases port dir ch b w Hch) as Hc. rewrite H in Hc.
  inversion Hc; subst; simpl.
  - split; [reflexivity |]. split.
    + rewrite lookup_insert, decide_True by reflexivity. simpl.
      symmetry. apply load_store_self.
    + intros _. eauto.
  - split; [reflexivity |]. split; [reflexivity |].
    intros Hu. rewrite (usable_not_nil _ _ Hu) in *. discriminate.
  - split; [reflexivity |]. split.
    + now rewrite lookup_insert, decide_True by reflexivity.
    + intros Hu. rewrite (usable_not_nil _ _ Hu) in *. discriminate.
Qed.

(** X8: when [ConnectBuf] succeeds on a graph built by the wiring calls,
    both ends are wired: the sender port and the receiver port are
    settable, and after the call both port variables hold the channel of
    the Connection just recorded, which is not nil. *)
Theorem ConnectBuf_wires_both_ends sN sP rN rP b w w' sendPort recvPort :
  wf w ->
  resolve (fst w) sN sP SendDir = Ret (sendPort, None) ->
  resolve (fst w) rN rP RecvDir = Ret (recvPort, None) ->
  connect sN sP rN rP b w = (Ret None, w') ->
  exists ch,
    connections (fst w') =
      (connections (fst w) ++
       [mkConnection (parseAddress sN sP) (parseAddress rN rP) ch b])%list /\
    CanSet sendPort = true /\ CanSet recvPort = true /\
    load (snd w') sendPort = load (snd w') ch /\
    load (snd w') recvPort = load (snd w') ch /\
    load (snd w') ch <> 0%N.
Proof.
  intros Hw Hs Hr H.
  rewrite (ConnectBuf_resolved _ _ _ _ _ _ _ _ _ _ Hs Hr) in H.
  rewrite (reuseChan_wf w _ _ Hw) in H.
  pose proof (find_wf w (parseAddress sN sP) SendDir Hw) as Hfs.
  pose proof (find_wf w (parseAddress rN rP) RecvDir Hw) as Hfr.
  assert (Hgen : forall ch isNew (w0 : @World Net),
            connections (fst w0) = connections (fst w) ->
            ch = VZero \/ usable (snd w0) ch = true ->
            wire sN sP rN rP b sendPort recvPort ch isNew w0 = (Ret None, w') ->
            exists ch1,
              connections (fst w') =
                (connections (fst w) ++
                 [mkConnection (parseAddress sN sP) (parseAddress rN rP) ch1 b])%list /\
              CanSet sendPort = true /\ CanSet recvPort = true /\
              load (snd w') sendPort = load (snd w') ch1 /\
              load (snd w') recvPort = load (snd w') ch1 /\
              load (snd w') ch1 <> 0%N).
  { clear H. intros ch isNew w0 Hc0 Hch H. rewrite wire_eq in H.
    assert (Hch' : invalid_or_nil (snd w0) ch = Ret true \/ usable (snd w0) ch = true).
    { destruct Hch as [-> | ?]; [left; reflexivity | now right]. }
    destruct (attachPort sendPort SendDir ch b w0) as [[[ch1 [e |]] | msg] w1] eqn:A1;
      try discriminate.
    destruct (attachPort_holds _ _ _ _ _ _ _ Hch' A1) as (Hset1 & Hload1 & _).
    assert (Hu1 : usable (snd w1) ch1 = true).
    { pose proof (attachPort_cases sendPort SendDir ch b w0 Hch') as Hc.
      rewrite A1 in Hc. inversion Hc; subst; cbn [snd fst].
      - apply usable_store; [now apply usable_load | assumption].
      - simpl. rewrite lookup_insert, decide_True by reflexivity. simpl.
        now apply negb_true_iff, N.eqb_neq.
      - apply usable_chan. unfold next_ptr. lia. }
    assert (Hg1 : fst w1 = fst w0).
    { pose proof (attachPort_frame sendPort SendDir ch b w0) as [Hg _].
      now rewrite A1 in Hg. }
    destruct (attachPort recvPort RecvDir ch1 b w1) as [[[ch2 [e |]] | msg] w2] eqn:A2;
      try discriminate.
    destruct (attachPort_holds _ _ _ _ _ _ _ (or_intror Hu1) A2)
      as (Hset2 & Hload2 & Hadopt).
    destruct (Hadopt Hu1) as (T & l & -> & -> & ->). simpl in *.
    set (p := load (snd w1) ch1) in *.
    assert (Hp : p <> 0%N) by (subst p; now apply usable_load).
    assert (Hself : load (store (snd w1) l p) ch1 = p) by apply load_store_self.
    assert (Hsend : load (store (snd w1) l p) sendPort = p).
    { rewrite load_store. destruct sendPort as [| t q | t ro l0]; auto.
      destruct (decide (l = l0)); auto. }
    assert (Hheap : snd w' = store (snd w1) l p /\
                    connections (fst w') =
                      (connections (fst w1) ++
                       [mkConnection (parseAddress sN sP) (parseAddress rN rP) ch1 b])%list).
    { destruct isNew.
      - rewrite (incChanListenersCount_eq _ ch1 p) in H.
        + injection H as <-. split; reflexivity.
        + simpl. rewrite (usable_pointer _ ch1) by (apply usable_store; assumption).
          now rewrite Hself.
      - unfold ret in H. injection H as <-. split; reflexivity. }
    destruct Hheap as [Eh Ec]. exists ch1. rewrite Eh, Ec, Hg1, Hc0, Hself, Hsend.
    repeat split; auto.
    unfold store. simpl. rewrite lookup_insert, decide_True by reflexivity.
    reflexivity. }
  destruct (has_match _ _ SendDir).
  - refine (Hgen _ _ _ _ _ H); [reflexivity | right; apply Hfs].
  - destruct (has_match _ _ RecvDir).
    + refine (Hgen _ _ _ _ _ H); [reflexivity | right; apply Hfr].
    + refine (Hgen _ _ _ _ _ H); [reflexivity | left; reflexivity].
Qed.

End Wired.

Lemma ConnectBuf_wires_both_ends_witness :
  exists ch,
    connections (fst demo_AB_CB) =
      (connections (fst demo_AB) ++
       [mkConnection (parseAddress "C" "Out") (parseAddress "B" "In") ch 5])%list /\
    CanSet (port_field SendDir "int" 3) = true /\
    CanSet (port_field RecvDir "int" 2) = true /\
    load (snd demo_AB_CB) (port_field SendDir "int" 3) = load (snd demo_AB_CB) ch /\
    load (snd demo_AB_CB) (port_field RecvDir "int" 2) = load (snd demo_AB_CB) ch /\
    load (snd demo_AB_CB) ch <> 0%N.
Proof.
  apply (ConnectBuf_wires_both_ends demoOutPort demoInPort "C" "Out" "B" "In" 5 demo_AB).
  - exact wf_demo_AB.
  - vm_compute. reflexivity.
  - vm_compute. reflexivity.
  - vm_compute. reflexivity.
Defined.

(** ** Calls that fail *)

Section Partial.
Context {Net : Type}.
Variable getOutPort : Net -> string -> Value * error.
Variable getInPort : Net -> string -> Value * error.
Implicit Types (w : @World Net) (h : Heap) (ch port : Value).

Local Abbreviation resolve := (getProcPort getOutPort getInPort).
Local Abbreviation connect := (ConnectBuf getOutPort getInPort).

(** X9: the resolver runs before anything is touched, sender first: when
    the sender process is not registered [ConnectBuf] returns "connect:
    process ... not found" for the sender, whatever the receiver is, and
    when the sender resolves but the receiver process is not registered it
    returns that error for the receiver; in both cases graph and heap are
    exactly as before the call. *)
Theorem unresolved_end_changes_nothing sN sP rN rP b w :
  (procs (fst w) !! sN = None ->
   ConnectBuf getOutPort getInPort sN sP rN rP b w =
     (Ret (Some ("connect: process '" +:+ sN +:+ "' not found")), w)) /\
  (forall sendPort,
      getProcPort getOutPort getInPort (fst w) sN sP SendDir = Ret (sendPort, None) ->
      procs (fst w) !! rN = None ->
      ConnectBuf getOutPort getInPort sN sP rN rP b w =
        (Ret (Some ("connect: process '" +:+ rN +:+ "' not found")), w)) /\
  (forall sendPort v e,
      getProcPort getOutPort getInPort (fst w) sN sP SendDir = Ret (sendPort, None) ->
      getProcPort getOutPort getInPort (fst w) rN rP RecvDir = Ret (v, Some e) ->
      ConnectBuf getOutPort getInPort sN sP rN rP b w = (Ret (Some ("connect: " +:+ e)), w)).
Proof.
  split; [| split].
  - intros Hs. rewrite ConnectBuf_eq. unfold getProcPort. now rewrite Hs.
  - intros sendPort Hs Hr. rewrite ConnectBuf_eq, Hs.
    unfold getProcPort. now rewrite Hr.
  - intros sendPort v e Hs Hr. now rewrite ConnectBuf_eq, Hs, Hr.
Qed.

(** X10: a receiver that fails its validation after the sender was given
    a new channel leaves that channel behind: in a graph built by the
    wiring calls, when both ends resolve, no channel is found to reuse,
    the sender port is a settable channel field that permits sending and
    holds no channel, and the size is one the runtime can make, but the
    receiver port is not a channel, has the wrong direction or is not
    settable, [ConnectBuf] returns the receiver's error, records no
    Connection and counts nothing, the graph is as before, and yet the
    sender port now holds a newly made channel of the requested size,
    which did not exist before and whose count is 0. *)
Theorem receiver_failure_leaves_sender_attached
    sN sP rN rP b w d e l recvPort t err :
  wf w ->
  resolve (fst w) sN sP SendDir = Ret (VField (ChanT d e) false l, None) ->
  validateChanDir (ChanT d e) SendDir = None ->
  resolve (fst w) rN rP RecvDir = Ret (recvPort, None) ->
  invalid_or_nil (snd w) (findExistingChan (fst w) (parseAddress sN sP) SendDir)
    = Ret true ->
  valid_and_not_nil (snd w) (findExistingChan (fst w) (parseAddress rN rP) RecvDir)
    = Ret false ->
  load (snd w) (VField (ChanT d e) false l) = 0%N ->
  (0 <= b <= makechan_limit (snd w) e)%Z ->
  TypeOf recvPort = Ret t ->
  validateChanDir t RecvDir = Some err \/
    (validateChanDir t RecvDir = None /\ CanSet recvPort = false /\
     err = "port is not assignable") ->
  let h' := store (alloc (snd w) e b) l (next_ptr (snd w)) in
  connect sN sP rN rP b w =
    (Ret (Some ("connect '" +:+ rN +:+ "." +:+ rP +:+ "': " +:+ err)), (fst w, h')) /\
  load h' (VField (ChanT d e) false l) = next_ptr (snd w) /\
  chan_at h' (next_ptr (snd w)) = Some (mkChan e b) /\
  chan_at (snd w) (next_ptr (snd w)) = None /\
  count_of (fst w) (next_ptr (snd w)) = 0%N.
Proof.
  intros Hw Hs Hv Hr Hn Hf Hl Hb Ht Herr h'.
  split; [| split; [| split; [| split]]];
    [| | | | apply (count_not_live w _ Hw), next_not_live].
  - rewrite (ConnectBuf_resolved _ _ _ _ _ _ _ _ _ _ Hs Hr).
    rewrite (reuseChan_none w _ _ Hn Hf). rewrite wire_eq.
    rewrite (attachPort_make d e l SendDir _ b w Hv (not_found_absent _ _ Hf) Hl Hb).
    destruct Herr as [He | (He & Hc & ->)].
    + now rewrite (attachPort_invalid_dir recvPort t err).
    + now rewrite (attachPort_not_settable recvPort t).
  - subst h'. simpl. now rewrite lookup_insert, decide_True by reflexivity.
  - subst h'. unfold store. apply (chan_at_next (snd w) e b).
  - unfold chan_at, next_ptr.
    destruct (N.eqb_spec (N.of_nat (S (length (chans (snd w))))) 0) as [_ | _];
      [reflexivity |].
    apply lookup_ge_None. lia.
Qed.

End Partial.

Lemma unresolved_end_changes_nothing_witness :
  demoConnectBuf "Z" "Out" "Y" "In" 0 demo =
    (Ret (Some "connect: process 'Z' not found"), demo) /\
  demoConnectBuf "A" "Out" "Y" "In" 0 demo =
    (Ret (Some "connect: process 'Y' not found"), demo) /\
  demoConnectBuf "A" "Out" "B" "Out" 0 demo =
    (Ret (Some "connect: process 'B' does not have port 'Out'"), demo).
Proof.
  split; [| split].
  - apply (unresolved_end_changes_nothing demoOutPort demoInPort
             "Z" "Out" "Y" "In" 0 demo). reflexivity.
  - apply (proj1 (proj2 (unresolved_end_changes_nothing demoOutPort demoInPort
                           "A" "Out" "Y" "In" 0 demo)) (port_field SendDir "int" 1));
      vm_compute; reflexivity.
  - apply (proj2 (proj2 (unresolved_end_changes_nothing demoOutPort demoInPort
                           "A" "Out" "B" "Out" 0 demo))
             (port_field SendDir "int" 1) VZero
             "process 'B' does not have port 'Out'");
      vm_compute; reflexivity.
Defined.

Lemma receiver_failure_leaves_sender_attached_witness :
  demoConnectBuf "E" "Out" "B" "Bad" 10 demo =
    (Ret (Some "connect 'B.Bad': channel does not support direction <-chan"),
     (fst demo, store (alloc (snd demo) "int" 10) 9 (next_ptr (snd demo)))) /\
  load (store (alloc (snd demo) "int" 10) 9 (next_ptr (snd demo)))
       (port_field BothDir "int" 9) = next_ptr (snd demo) /\
  chan_at (store (alloc (snd demo) "int" 10) 9 (next_ptr (snd demo)))
          (next_ptr (snd demo)) = Some (mkChan "int" 10) /\
  chan_at (snd demo) (next_ptr (snd demo)) = None /\
  count_of (fst demo) (next_ptr (snd demo)) = 0%N.
Proof.
  apply (receiver_failure_leaves_sender_attached demoOutPort demoInPort
           "E" "Out" "B" "Bad" 10 demo BothDir "int" 9%N
           (port_field SendDir "int" 6) (ChanT SendDir "int")
           "channel does not support direction <-chan");
    try (vm_compute; reflexivity).
  - exact wf_demo.
  - split; vm_compute; discriminate.
  - left. reflexivity.
Defined.

(** ** Graphs built by any sequence of calls *)

Section Reachable.
Context {Net : Type}.
Variable getOutPort : Net -> string -> Value * error.
Variable getInPort : Net -> string -> Value * error.
Implicit Types (w : @World Net) (h : Heap) (ch port : Value).

Local Abbreviation connect := (ConnectBuf getOutPort getInPort).

Lemma connect_all_wf (calls : list call) w :
  wf w -> wf (connect_all getOutPort getInPort calls w).
Proof.
  revert w. induction calls as [|c rest IH]; intros w Hw; simpl; [exact Hw |].
  apply IH. now apply ConnectBuf_wf.
Qed.

Lemma usable_IsNil h ch :
  usable h ch = true -> IsValid ch = true /\ IsNil h ch = Ret false.
Proof.
  intros Hu. split; [now apply usable_valid in Hu |].
  pose proof (usable_not_nil h ch Hu) as H. unfold invalid_or_nil in H.
  now rewrite (usable_valid h ch Hu) in H.
Qed.

(** X11: start from a graph without connections and counts, over port
    variables that are nil or hold allocated channels, and make any calls
    of [ConnectBuf], successful or not: every recorded Connection then
    holds a valid, non-nil channel, every count that is not zero belongs
    to an allocated channel, and the channel lookup of a further call
    never panics. *)
Theorem recorded_channels_never_nil (n : @Graph Net) h (calls : list call) :
  connections n = [] ->
  chanListenersCount n = ∅ ->
  (forall l p, slots h !! l = Some p -> p = 0%N \/ live h p) ->
  let w' := connect_all getOutPort getInPort calls (n, h) in
  Forall (fun c => IsValid (channel c) = true /\
                   IsNil (snd w') (channel c) = Ret false)
         (connections (fst w')) /\
  (forall p, count_of (fst w') p <> 0%N -> exists c, chan_at (snd w') p = Some c) /\
  (forall sa ra, exists ch isNew w'',
      reuseChan sa ra w' = (Ret (ch, isNew), w'')).
Proof.
  intros Hc Hk Hs w'.
  assert (Hw : wf w') by (apply connect_all_wf; now apply wf_fresh).
  split; [| split].
  - eapply Forall_impl; [apply (wf_conns _ Hw) |].
    intros c [Hu _]. now apply usable_IsNil.
  - intros p Hp. destruct (wf_count _ Hw p Hp) as [Hpos Hle].
    unfold chan_at. destruct (N.eqb_spec p 0) as [-> | _]; [lia |].
    apply lookup_lt_is_Some. lia.
  - intros sa ra. rewrite (reuseChan_wf w' sa ra Hw).
    destruct (has_match _ _ SendDir); [eauto |].
    destruct (has_match _ _ RecvDir); eauto.
Qed.

End Reachable.

Lemma recorded_channels_never_nil_witness :
  let w' := connect_all demoOutPort demoInPort demo_calls demo in
  Forall (fun c => IsValid (channel c) = true /\
                   IsNil (snd w') (channel c) = Ret false)
         (connections (fst w')) /\
  (forall p, count_of (fst w') p <> 0%N -> exists c, chan_at (snd w') p = Some c) /\
  (forall sa ra, exists ch isNew w'',
      reuseChan sa ra w' = (Ret (ch, isNew), w'')).
Proof.
  apply (recorded_channels_never_nil demoOutPort demoInPort demo_graph demo_heap demo_calls).
  - reflexivity.
  - reflexivity.
  - intros l p. simpl. rewrite lookup_empty. discriminate.
Defined.

(** ** Many receivers, many senders *)

Section Fans.
Context {Net : Type}.
Variable getOutPort : Net -> string -> Value * error.
Variable getInPort : Net -> string -> Value * error.
Implicit Types (w : @World Net) (h : Heap) (ch port : Value).

Local Abbreviation connect := (ConnectBuf getOutPort getInPort).

(** Calls from a sender address that already is a source. *)
Lemma connect_receivers_shared sN sP (receivers : list (string * string * Z)) :
  forall w w',
  wf w ->
  has_match (connections (fst w)) (parseAddress sN sP) SendDir = true ->
  connect_receivers getOutPort getInPort sN sP receivers w = Some w' ->
  let ch := findExistingChan (fst w) (parseAddress sN sP) SendDir in
  connections (fst w') =
    (connections (fst w) ++ map (out_connection (parseAddress sN sP) ch) receivers)%list /\
  chanListenersCount (fst w') = chanListenersCount (fst w) /\
  chans (snd w') = chans (snd w) /\
  load (snd w') ch = load (snd w) ch /\
  wf w'.
Proof.
  induction receivers as [|[[r q] b] rest IH]; intros w w' Hw Hm H ch; simpl in H.
  - injection H as <-. simpl. rewrite app_nil_r. auto.
  - destruct (connect sN sP r q b w) as [[[e |] | msg] w1] eqn:E; try discriminate.
    destruct (ConnectBuf_success _ _ _ _ _ _ _ _ _ Hw E)
      as (c1 & Hc1 & _ & Hw1 & Hout & _).
    destruct (Hout Hm) as (-> & Hch1 & Hl1 & Hk1). fold ch in Hc1, Hl1.
    assert (Hm1 : has_match (connections (fst w1)) (parseAddress sN sP) SendDir = true).
    { rewrite Hc1, has_match_app, Hm. reflexivity. }
    assert (Hf1 : findExistingChan (fst w1) (parseAddress sN sP) SendDir = ch).
    { unfold findExistingChan. rewrite Hc1, find_app, Hm. reflexivity. }
    destruct (IH w1 w' Hw1 Hm1 H) as (A & B & C & D & F).
    rewrite Hf1 in A, D.
    split; [rewrite A, Hc1, <- app_assoc; reflexivity |].
    split; [congruence |]. split; [congruence |]. split; [congruence | exact F].
Qed.

(** Calls from new sender addresses to a receiver address that already
    is a target. *)
Lemma connect_senders_joined rN rP (senders : list (string * string * Z)) :
  forall w w',
  wf w ->
  has_match (connections (fst w)) (parseAddress rN rP) RecvDir = true ->
  Forall (fun x => has_match (connections (fst w)) (end_addr x) SendDir = false) senders ->
  NoDup (map end_addr senders) ->
  connect_senders getOutPort getInPort senders rN rP w = Some w' ->
  let ch := findExistingChan (fst w) (parseAddress rN rP) RecvDir in
  let ptr := load (snd w) ch in
  connections (fst w') =
    (connections (fst w) ++ map (in_connection (parseAddress rN rP) ch) senders)%list /\
  chans (snd w') = chans (snd w) /\
  load (snd w') ch = ptr /\
  ((count_of (fst w) ptr + N.of_nat (length senders) < uint_modulus)%N ->
   count_of (fst w') ptr = (count_of (fst w) ptr + N.of_nat (length senders))%N /\
   forall q, q <> ptr -> count_of (fst w') q = count_of (fst w) q).
Proof.
  induction senders as [|[[s p] b] rest IH]; intros w w' Hw Hm Hfresh Hnd H ch ptr;
    simpl in H.
  - injection H as <-. simpl. rewrite app_nil_r, N.add_0_r. auto.
  - destruct (connect s p rN rP b w) as [[[e |] | msg] w1] eqn:E; try discriminate.
    inversion Hfresh as [| x xs Hs Hrest]; subst.
    inversion Hnd as [| y ys Hnotin Hnd']; subst.
    unfold end_addr in Hs. simpl in Hs.
    destruct (ConnectBuf_success _ _ _ _ _ _ _ _ _ Hw E)
      as (c1 & Hc1 & _ & Hw1 & _ & Hin & _).
    destruct (Hin Hs Hm) as (-> & Hch1 & Hl1 & Hk1).
    fold ch in Hc1, Hl1, Hk1. fold ptr in Hk1.
    assert (Hm1 : has_match (connections (fst w1)) (parseAddress rN rP) RecvDir = true).
    { rewrite Hc1, has_match_app, Hm. reflexivity. }
    assert (Hf1 : findExistingChan (fst w1) (parseAddress rN rP) RecvDir = ch).
    { unfold findExistingChan. rewrite Hc1, find_app, Hm. reflexivity. }
    assert (Hfresh1 : Forall (fun x => has_match (connections (fst w1)) (end_addr x)
                                         SendDir = false) rest).
    { rewrite Forall_forall in Hrest |- *. intros x Hx.
      rewrite Hc1, has_match_app, (Hrest x Hx). simpl.
      rewrite orb_false_r. apply bool_decide_eq_false. intros Eq.
      apply Hnotin. unfold end_addr at 1. simpl. rewrite Eq.
      apply list_elem_of_In, in_map, list_elem_of_In. exact Hx. }
    specialize (IH w1 w' Hw1 Hm1 Hfresh1 Hnd' H). simpl in IH.
    rewrite Hf1, Hl1 in IH. fold ptr in IH.
    destruct IH as (A & D & F & B).
    split; [rewrite A, Hc1, <- app_assoc; reflexivity |].
    split; [congruence |]. split; [exact F |].
    simpl length. rewrite Nat2N.inj_succ. intros Hlt.
    assert (Hcnt1 : count_of (fst w1) ptr = (count_of (fst w) ptr + 1)%N).
    { rewrite (count_of_ext _ _ _ Hk1), count_of_counted. apply N.mod_small. lia. }
    assert (Hoth1 : forall q, q <> ptr -> count_of (fst w1) q = count_of (fst w) q).
    { intros q Hq. rewrite (count_of_ext _ _ _ Hk1). unfold counted.
      rewrite count_of_set_count. now rewrite decide_False by congruence. }
    destruct B as [B C]; [rewrite Hcnt1; lia |].
    split; [rewrite B, Hcnt1; lia |].
    intros q Hq. rewrite (C q Hq). now apply Hoth1.
Qed.

Lemma usable_same_load h h' ch :
  usable h ch = true -> load h' ch = load h ch -> usable h' ch = true.
Proof.
  intros Hu Hl. pose proof (usable_load h ch Hu) as Hnz.
  destruct ch as [| t p | t ro l]; simpl in *; auto.
  apply andb_true_iff in Hu as [Hu _]. rewrite Hu. simpl.
  apply negb_true_iff, N.eqb_neq. congruence.
Qed.

(** X12: once a sender address is the source of a recorded Connection,
    every further successful [ConnectBuf] from it, to any receivers and
    with any buffer sizes, records the channel of that first Connection,
    makes no channel and changes no count: however far a sender fans out,
    its channel is counted as it was. *)
Theorem fan_out_keeps_one_channel sN sP (receivers : list (string * string * Z)) w w' :
  wf w ->
  has_match (connections (fst w)) (parseAddress sN sP) SendDir = true ->
  connect_receivers getOutPort getInPort sN sP receivers w = Some w' ->
  exists ch ptr,
    findExistingChan (fst w) (parseAddress sN sP) SendDir = ch /\
    Pointer (snd w) ch = Ret ptr /\
    Pointer (snd w') ch = Ret ptr /\
    connections (fst w') =
      (connections (fst w) ++ map (out_connection (parseAddress sN sP) ch) receivers)%list /\
    (forall q, count_of (fst w') q = count_of (fst w) q) /\
    chans (snd w') = chans (snd w).
Proof.
  intros Hw Hm H.
  destruct (connect_receivers_shared sN sP receivers w w' Hw Hm H)
    as (Hc & Hk & Hch & Hl & _).
  pose proof (find_wf w (parseAddress sN sP) SendDir Hw) as Hf. rewrite Hm in Hf.
  destruct Hf as [Hu _].
  eexists _, _. split; [reflexivity |].
  split; [now apply usable_pointer |].
  split; [rewrite <- Hl; apply usable_pointer; now apply (usable_same_load (snd w)) |].
  split; [exact Hc |]. split; [| exact Hch].
  intros q. now apply count_of_ext.
Qed.

(** X13: senders that are not yet the source of any Connection, pairwise
    different, and that all connect successfully to a receiver address
    that already is the target of a Connection, all record the channel of
    that Connection, and its count goes up by the number of senders (short
    of the largest [uint]); no other count changes and no channel is made. *)
Theorem fan_in_counts_every_sender rN rP (senders : list (string * string * Z)) w w' :
  wf w ->
  has_match (connections (fst w)) (parseAddress rN rP) RecvDir = true ->
  Forall (fun x => has_match (connections (fst w)) (end_addr x) SendDir = false) senders ->
  NoDup (map end_addr senders) ->
  connect_senders getOutPort getInPort senders rN rP w = Some w' ->
  exists ch ptr,
    findExistingChan (fst w) (parseAddress rN rP) RecvDir = ch /\
    Pointer (snd w) ch = Ret ptr /\
    Pointer (snd w') ch = Ret ptr /\
    connections (fst w') =
      (connections (fst w) ++ map (in_connection (parseAddress rN rP) ch) senders)%list /\
    chans (snd w') = chans (snd w) /\
    ((count_of (fst w) ptr + N.of_nat (length senders) < uint_modulus)%N ->
     count_of (fst w') ptr = (count_of (fst w) ptr + N.of_nat (length senders))%N /\
     forall q, q <> ptr -> count_of (fst w') q = count_of (fst w) q).
Proof.
  intros Hw Hm Hfresh Hnd H.
  pose proof (find_wf w (parseAddress rN rP) RecvDir Hw) as Hf. rewrite Hm in Hf.
  destruct Hf as [Hu _].
  destruct (connect_senders_joined rN rP senders w w' Hw Hm Hfresh Hnd H)
    as (Hc & Hch & Hl & Hcount).
  eexists _, _. split; [reflexivity |].
  split; [now apply usable_pointer |].
  split.
  { rewrite (usable_pointer (snd w')) by now apply (usable_same_load (snd w)).
    now rewrite Hl. }
  split; [exact Hc |]. split; [exact Hch | exact Hcount].
Qed.

End Fans.

Lemma fan_out_keeps_one_channel_witness :
  exists ch ptr,
    findExistingChan (fst demo_AB) (parseAddress "A" "Out") SendDir = ch /\
    Pointer (snd demo_AB) ch = Ret ptr /\
    Pointer (snd demo_AB_AC) ch = Ret ptr /\
    connections (fst demo_AB_AC) =
      (connections (fst demo_AB) ++
       map (out_connection (parseAddress "A" "Out") ch) [("C", "In", 5%Z)])%list /\
    (forall q, count_of (fst demo_AB_AC) q = count_of (fst demo_AB) q) /\
    chans (snd demo_AB_AC) = chans (snd demo_AB).
Proof.
  apply (fan_out_keeps_one_channel demoOutPort demoInPort "A" "Out"
           [("C", "In", 5%Z)] demo_AB demo_AB_AC).
  - exact wf_demo_AB.
  - vm_compute. reflexivity.
  - vm_compute. reflexivity.
Defined.

Lemma fan_in_counts_every_sender_witness :
  exists w',
    connect_senders demoOutPort demoInPort [("C", "Out", 5%Z); ("X", "Out", 0%Z)]
      "B" "In" demo_AB = Some w' /\
    count_of (fst demo_AB) 1 = 1%N /\
    count_of (fst w') 1 = 3%N /\
    chans (snd w') = chans (snd demo_AB).
Proof.
  destruct (connect_senders demoOutPort demoInPort [("C", "Out", 5%Z); ("X", "Out", 0%Z)]
              "B" "In" demo_AB) as [w' |] eqn:E; [| vm_compute in E; discriminate].
  exists w'. split; [reflexivity |].
  destruct (fan_in_counts_every_sender demoOutPort demoInPort "B" "In"
              [("C", "Out", 5%Z); ("X", "Out", 0%Z)] demo_AB w')
    as (ch & ptr & Hch & Hp & _ & _ & Hchans & Hcount).
  - exact wf_demo_AB.
  - vm_compute. reflexivity.
  - repeat constructor.
  - vm_compute. repeat constructor; rewrite ?elem_of_cons, ?elem_of_nil; intuition discriminate.
  - exact E.
  - subst ch. vm_compute in Hp. injection Hp as <-.
    split; [vm_compute; reflexivity |]. split; [| exact Hchans].
    destruct Hcount as [Hcount _]; [vm_compute; reflexivity |].
    rewrite Hcount. vm_compute. reflexivity.
Defined.

(** ** Which call counts a sender *)

Section Counted.
Context {Net : Type}.
Variable getOutPort : Net -> string -> Value * error.
Variable getInPort : Net -> string -> Value * error.
Implicit Types (w : @World Net) (h : Heap) (ch port : Value).

Local Abbreviation resolve := (getProcPort getOutPort getInPort).
Local Abbreviation connect := (ConnectBuf getOutPort getInPort).

(** X14: a sender address is counted once, by the call that records its
    first Connection: a successful [ConnectBuf] raises the count of the
    channel it records by one when no Connection had the sender address
    as its source, leaves it as it is otherwise, and never changes the
    count of any other channel. *)
Theorem sender_counted_on_first_connection sN sP rN rP b w w' :
  wf w ->
  connect sN sP rN rP b w = (Ret None, w') ->
  exists ch ptr,
    connections (fst w') =
      (connections (fst w) ++
       [mkConnection (parseAddress sN sP) (parseAddress rN rP) ch b])%list /\
    Pointer (snd w') ch = Ret ptr /\
    count_of (fst w') ptr =
      (if has_match (connections (fst w)) (parseAddress sN sP) SendDir
       then count_of (fst w) ptr
       else ((count_of (fst w) ptr + 1) mod uint_modulus)%N) /\
    (forall q, q <> ptr -> count_of (fst w') q = count_of (fst w) q).
Proof.
  intros Hw H.
  destruct (ConnectBuf_success _ _ _ _ _ _ _ _ _ Hw H)
    as (ch & Hc & Hu & _ & Hout & Hin & Hnew).
  exists ch, (load (snd w') ch).
  split; [exact Hc |]. split; [now apply usable_pointer |].
  assert (Hcounted : forall p,
            chanListenersCount (fst w') = chanListenersCount (counted (fst w) p) ->
            count_of (fst w') p = ((count_of (fst w) p + 1) mod uint_modulus)%N /\
            forall q, q <> p -> count_of (fst w') q = count_of (fst w) q).
  { intros p Hk. split.
    - rewrite (count_of_ext _ _ _ Hk). apply count_of_counted.
    - intros q Hq. rewrite (count_of_ext _ _ _ Hk). unfold counted.
      rewrite count_of_set_count. now rewrite decide_False by congruence. }
  destruct (has_match _ _ SendDir).
  - destruct (Hout eq_refl) as (_ & _ & _ & Hk).
    split; [now apply count_of_ext | intros q _; now apply count_of_ext].
  - destruct (has_match (connections (fst w)) (parseAddress rN rP) RecvDir).
    + destruct (Hin eq_refl eq_refl) as (_ & _ & Hl & Hk).
      rewrite <- Hl in Hk. now apply Hcounted.
    + destruct (Hnew eq_refl eq_refl) as (Hk & _). now apply Hcounted.
Qed.


End Counted.

Lemma sender_counted_on_first_connection_witness :
  exists ch ptr,
    connections (fst demo_AB_CB) =
      (connections (fst demo_AB) ++
       [mkConnection (parseAddress "C" "Out") (parseAddress "B" "In") ch 5])%list /\
    Pointer (snd demo_AB_CB) ch = Ret ptr /\
    count_of (fst demo_AB_CB) ptr =
      (if has_match (connections (fst demo_AB)) (parseAddress "C" "Out") SendDir
       then count_of (fst demo_AB) ptr
       else ((count_of (fst demo_AB) ptr + 1) mod uint_modulus)%N) /\
    (forall q, q <> ptr -> count_of (fst demo_AB_CB) q = count_of (fst demo_AB) q).
Proof.
  apply (sender_counted_on_first_connection demoOutPort demoInPort
           "C" "Out" "B" "In" 5 demo_AB demo_AB_CB).
  - exact wf_demo_AB.
  - vm_compute. reflexivity.
Defined.


(** ** From wiring to closing *)

Section Closing.
Context {Net : Type}.
Variable getOutPort : Net -> string -> Value * error.
Variable getInPort : Net -> string -> Value * error.
Implicit Types (w : @World Net) (h : Heap) (ch port : Value).

Local Abbreviation connect := (ConnectBuf getOutPort getInPort).

(** X16: senders and decrements match: when a first sender creates the
    channel of a receiver port and further senders, new and pairwise
    different, join it, then of as many [decChanListenersCount] calls as
    there are senders only the last one returns true. *)
Theorem last_fan_in_sender_closes s1 p1 rN rP b1 senders w0 w1 w' :
  wf w0 ->
  connect s1 p1 rN rP b1 w0 = (Ret None, w1) ->
  chans (snd w1) <> chans (snd w0) ->
  Forall (fun x => has_match (connections (fst w1)) (end_addr x) SendDir = false) senders ->
  NoDup (map end_addr senders) ->
  connect_senders getOutPort getInPort senders rN rP w1 = Some w' ->
  (N.of_nat (S (length senders)) < uint_modulus)%N ->
  exists ch,
    Forall (fun c => channel c = ch)
           (drop (length (connections (fst w0))) (connections (fst w'))) /\
    length (connections (fst w')) = length (connections (fst w0)) + S (length senders) /\
    fst (dec_times (S (length senders)) ch w') =
      (repeat (Ret false) (length senders) ++ [Ret true])%list.
Proof.
  intros Hw H1 Hne Hfresh Hnd H Hlt.
  destruct (ConnectBuf_new_channel _ _ _ _ _ _ _ _ _ Hw H1 Hne)
    as (e & Hc1 & _ & _ & _ & Hcount & Hw1).
  simpl in Hc1.
  set (ptr := next_ptr (snd w0)) in *.
  set (ch := VChan (ChanT BothDir e) ptr) in *.
  assert (Hm : has_match (connections (fst w1)) (parseAddress rN rP) RecvDir = true).
  { rewrite Hc1. now apply has_match_last. }
  assert (Hf : findExistingChan (fst w1) (parseAddress rN rP) RecvDir = ch).
  { unfold findExistingChan. rewrite Hc1.
    pose proof (ConnectBuf_new_channel _ _ _ _ _ _ _ _ _ Hw H1 Hne)
      as (e' & _ & _ & _ & Mr & _).
    now rewrite find_last. }
  destruct (connect_senders_joined _ _ rN rP senders w1 w' Hw1 Hm Hfresh Hnd H)
    as (Hc & _ & _ & Hcnt).
  rewrite Hf in Hc, Hcnt. change (load (snd w1) ch) with ptr in Hcnt.
  destruct Hcnt as [Hcnt _].
  { rewrite Hcount. rewrite Nat2N.inj_succ in Hlt. lia. }
  exists ch. split; [| split].
  - rewrite Hc, Hc1, <- app_assoc, drop_app_length.
    constructor; [reflexivity |].
    apply Forall_forall. intros c Hin. apply list_elem_of_In, in_map_iff in Hin.
    destruct Hin as (x & <- & _). reflexivity.
  - rewrite Hc, Hc1, !length_app, length_map. simpl. lia.
  - apply (dec_times_count (length senders) w' ch ptr); [reflexivity |].
    rewrite Hcnt, Hcount, Nat2N.inj_succ. lia.
Qed.

(** X17: one sender, one close: when a sender creates its channel and
    then fans out to any number of further receivers, its first
    [decChanListenersCount] returns true and leaves the count at zero. *)
Theorem fan_out_sender_closes_once sN sP r1 q1 b1 receivers w0 w1 w' :
  wf w0 ->
  connect sN sP r1 q1 b1 w0 = (Ret None, w1) ->
  chans (snd w1) <> chans (snd w0) ->
  connect_receivers getOutPort getInPort sN sP receivers w1 = Some w' ->
  exists ch w'',
    Forall (fun c => channel c = ch)
           (drop (length (connections (fst w0))) (connections (fst w'))) /\
    length (connections (fst w')) = length (connections (fst w0)) + S (length receivers) /\
    decChanListenersCount ch w' = (Ret true, w'') /\
    (forall ptr, Pointer (snd w') ch = Ret ptr -> count_of (fst w'') ptr = 0%N).
Proof.
  intros Hw H1 Hne H.
  destruct (ConnectBuf_new_channel _ _ _ _ _ _ _ _ _ Hw H1 Hne)
    as (e & Hc1 & _ & Ms & _ & Hcount & Hw1).
  simpl in Hc1.
  set (ptr := next_ptr (snd w0)) in *.
  set (ch := VChan (ChanT BothDir e) ptr) in *.
  assert (Hm : has_match (connections (fst w1)) (parseAddress sN sP) SendDir = true).
  { rewrite Hc1. now apply has_match_last. }
  assert (Hf : findExistingChan (fst w1) (parseAddress sN sP) SendDir = ch).
  { unfold findExistingChan. rewrite Hc1. now rewrite find_last. }
  destruct (connect_receivers_shared _ _ sN sP receivers w1 w' Hw1 Hm H)
    as (Hc & Hk & _).
  rewrite Hf in Hc.
  assert (Hcnt : count_of (fst w') ptr = 1%N).
  { rewrite (count_of_ext _ _ _ Hk). exact Hcount. }
  exists ch. eexists. split; [| split; [| split]].
  - rewrite Hc, Hc1, <- app_assoc, drop_app_length.
    constructor; [reflexivity |].
    apply Forall_forall. intros c Hin. apply list_elem_of_In, in_map_iff in Hin.
    destruct Hin as (x & <- & _). reflexivity.
  - rewrite Hc, Hc1, !length_app, length_map. simpl. lia.
  - rewrite (decChanListenersCount_pos w' ch ptr eq_refl) by (rewrite Hcnt; lia).
    rewrite Hcnt. reflexivity.
  - intros q [= <-]. simpl. rewrite count_of_set_count.
    now rewrite decide_True by reflexivity.
Qed.

End Closing.

Lemma last_fan_in_sender_closes_witness :
  exists w' ch,
    connect_senders demoOutPort demoInPort [("C", "Out", 5%Z); ("X", "Out", 0%Z)]
      "B" "In" demo_AB = Some w' /\
    length (connections (fst w')) = 3 /\
    fst (dec_times 3 ch w') = [Ret false; Ret false; Ret true].
Proof.
  destruct (connect_senders demoOutPort demoInPort [("C", "Out", 5%Z); ("X", "Out", 0%Z)]
              "B" "In" demo_AB) as [w' |] eqn:E; [| vm_compute in E; discriminate].
  destruct (last_fan_in_sender_closes demoOutPort demoInPort "A" "Out" "B" "In" 10
              [("C", "Out", 5%Z); ("X", "Out", 0%Z)] demo demo_AB w')
    as (ch & _ & Hlen & Hdec).
  - exact wf_demo.
  - vm_compute. reflexivity.
  - vm_compute. discriminate.
  - repeat constructor.
  - vm_compute. repeat constructor; rewrite ?elem_of_cons, ?elem_of_nil; intuition discriminate.
  - exact E.
  - vm_compute. reflexivity.
  - exists w', ch. split; [reflexivity |]. split; [exact Hlen | exact Hdec].
Defined.

Lemma fan_out_sender_closes_once_witness :
  exists ch w'',
    length (connections (fst demo_AB_AC)) = 2 /\
    decChanListenersCount ch demo_AB_AC = (Ret true, w'').
Proof.
  destruct (fan_out_sender_closes_once demoOutPort demoInPort "A" "Out" "B" "In" 10
              [("C", "In", 5%Z)] demo demo_AB demo_AB_AC)
    as (ch & w'' & _ & Hlen & Hdec & _).
  - exact wf_demo.
  - vm_compute. reflexivity.
  - vm_compute. discriminate.
  - vm_compute. reflexivity.
  - exists ch, w''. split; [exact Hlen | exact Hdec].
Defined.

(** ** When the attach step refuses a port *)

Section Refusal.
Context {Net : Type}.
Implicit Types (w : @World Net) (h : Heap) (ch port : Value).

(** X18: [attachPort] returns an error exactly when the port is a valid
    Value that is not of channel kind, whose channel direction shares
    nothing with the direction asked for, or that is not settable, the
    direction being checked before settability; it then returns the
    channel it was given and touches neither graph nor heap.  A channel
    type passes the direction check exactly when it is bidirectional or
    of the direction asked for. *)
Theorem attachPort_refuses port dir ch b w ch' e w' :
  (attachPort port dir ch b w = (Ret (ch', Some e), w') <->
   exists t, TypeOf port = Ret t /\ ch' = ch /\ w' = w /\
     (validateChanDir t dir = Some e \/
      (validateChanDir t dir = None /\ CanSet port = false /\
       e = "port is not assignable"))) /\
  (forall pd elem,
      validateChanDir (ChanT pd elem) dir = None <->
      (pd = BothDir \/ dir = BothDir \/ pd = dir)) /\
  (forall name, validateChanDir (OtherT name) dir = Some "not a channel").
Proof.
  split; [| split].
  - split.
    + intros H.
      destruct (TypeOf port) as [t | msg] eqn:Ht.
      2:{ unfold attachPort, bind, lift in H. rewrite Ht in H. discriminate. }
      exists t. split; [reflexivity |].
      destruct (validateChanDir t dir) as [e1 |] eqn:Hv.
      { rewrite (attachPort_invalid_dir port t e1 dir ch b w Ht Hv) in H.
        injection H as <- <- <-. auto. }
      destruct (CanSet port) eqn:Hs.
      2:{ rewrite (attachPort_not_settable port t dir ch b w Ht Hv Hs) in H.
          injection H as <- <- <-. auto 6. }
      exfalso. unfold attachPort, bind, lift, ret in H. rewrite Ht in H. simpl in H.
      rewrite Hv in H. unfold validateCanSet in H. rewrite Hs in H. simpl in H.
      destruct (selectOrMakeChan ch port b w) as [[c | msg] w1]; [| discriminate].
      destruct (SetValue (snd w1) port c) as [h' | msg]; discriminate.
    + intros (t & Ht & -> & -> & [Hv | (Hv & Hs & ->)]).
      * now apply attachPort_invalid_dir with (t := t).
      * now apply attachPort_not_settable with (t := t).
  - intros pd elem. unfold validateChanDir.
    destruct pd, dir; simpl; split; intros H; try discriminate; try reflexivity;
      auto; destruct H as [H | [H | H]]; discriminate.
  - reflexivity.
Qed.

End Refusal.

Lemma attachPort_refuses_witness :
  attachPort (port_field RecvDir "int" 2) SendDir chan1 0 demo_AB =
    (Ret (chan1, Some "channel does not support direction chan<-"), demo_AB).
Proof.
  apply (proj1 (attachPort_refuses (port_field RecvDir "int" 2) SendDir chan1 0 demo_AB
                  chan1 "channel does not support direction chan<-" demo_AB)).
  exists (ChanT RecvDir "int"). repeat split. left. reflexivity.
Defined.
